(** * SHA-256_Explained: a shallow embedding of [sha256_simple] (SHA-256.py)

  The Python function [sha256_simple] and its nested helpers are
  transcribed as Rocq functions.  Python integers are unbounded, so
  they are modelled by [Z]; the masks [& 0xFFFFFFFF] of the source are
  written out with [Z.land].  The strings the program builds (bit
  strings of '0'/'1' and the hexadecimal digest) are ASCII and are
  modelled by [string]; the input message is a Python [str] that may
  hold any Unicode character and is modelled by the list of its code
  points.  A Python exception (IndexError, ValueError) and a loop that
  exhausts its fuel are both modelled by [None]. *)

From Stdlib Require Import ZArith NArith List String Ascii Bool Lia ZifyNat.
Import ListNotations.

Local Open Scope string_scope.
Local Open Scope Z_scope.

(** [lia] on goals with division and remainder by constants. *)
Ltac Zify.zify_post_hook ::= Z.div_mod_to_equations.

(** ** The error monad *)

Definition bind {A B : Type} (c : option A) (k : A -> option B) : option B :=
  match c with
  | Some a => k a
  | None => None
  end.

Notation "x <- c ;; k" := (bind c (fun x => k))
  (at level 61, c at next level, right associativity).

(** [for x in l: s = body x s], stopping at the first exception. *)
Fixpoint for_each {A S : Type} (body : A -> S -> option S) (l : list A) (s : S)
  : option S :=
  match l with
  | [] => Some s
  | x :: l' => s' <- body x s ;; for_each body l' s'
  end.

(** [[f x for x in l]], stopping at the first exception. *)
Fixpoint map_opt {A B : Type} (f : A -> option B) (l : list A) : option (list B) :=
  match l with
  | [] => Some []
  | x :: l' => y <- f x ;; ys <- map_opt f l' ;; Some (y :: ys)
  end.

(** ** Python built-ins used by the program *)

Module Py.

(** A Python [str] given by its code points. *)
Definition ustr : Type := list N.

Definition ord (c : N) : Z := Z.of_N c.

(** ["0123456789abcdef"[d]] *)
Definition digit_char (d : Z) : ascii :=
  match d with
  | 0 => "0" | 1 => "1" | 2 => "2" | 3 => "3"
  | 4 => "4" | 5 => "5" | 6 => "6" | 7 => "7"
  | 8 => "8" | 9 => "9" | 10 => "a" | 11 => "b"
  | 12 => "c" | 13 => "d" | 14 => "e" | _ => "f"
  end%char.

(** The digits of [n >= 0] in [base], most significant first, without
    leading zeros ("0" for zero). *)
Fixpoint to_digits (base : Z) (fuel : nat) (n : Z) : string :=
  match fuel with
  | O => EmptyString
  | S fuel' =>
      if n <? base then String (digit_char n) EmptyString
      else to_digits base fuel' (n / base) ++ String (digit_char (n mod base)) EmptyString
  end.

Definition digits (base : Z) (n : Z) : string :=
  to_digits base (S (Z.to_nat (Z.log2 n))) n.

Fixpoint zeros (k : nat) : string :=
  match k with
  | O => EmptyString
  | S k' => String "0" (zeros k')
  end.

Definition zfill (width : nat) (s : string) : string :=
  zeros (width - length s) ++ s.

(** [format(n, "0<width>b")] and [format(n, "0<width>x")]: zero padding to
    a minimum width, the sign (if any) counted in the width. *)
Definition format_0 (base : Z) (width : nat) (n : Z) : string :=
  if n <? 0 then String "-" (zfill (width - 1) (digits base (- n)))
  else zfill width (digits base n).

Definition format_b : nat -> Z -> string := format_0 2.
Definition format_x : nat -> Z -> string := format_0 16.

(** [int(s, 2)] on a string of binary digits; [None] is the ValueError
    raised on the empty string and on a character that is no binary
    digit.  (The sign, prefix, underscore and blank forms that [int]
    also accepts cannot occur in the slices of a bit string.) *)
Fixpoint int2_from (acc : Z) (s : string) : option Z :=
  match s with
  | EmptyString => Some acc
  | String c s' =>
      if Ascii.eqb c "0" then int2_from (2 * acc) s'
      else if Ascii.eqb c "1" then int2_from (2 * acc + 1) s'
      else None
  end.

Definition int2 (s : string) : option Z :=
  match s with
  | EmptyString => None
  | _ => int2_from 0 s
  end.

(** The value of a hexadecimal digit, of either case. *)
Definition hex_val (c : ascii) : option Z :=
  let n := Z.of_nat (nat_of_ascii c) in
  if (48 <=? n) && (n <=? 57) then Some (n - 48)
  else if (97 <=? n) && (n <=? 102) then Some (n - 87)
  else if (65 <=? n) && (n <=? 70) then Some (n - 55)
  else None.

(** [int(s, 16)] on a string of hexadecimal digits; [None] is the
    ValueError, as for [int2]. *)
Fixpoint int16_from (acc : Z) (s : string) : option Z :=
  match s with
  | EmptyString => Some acc
  | String c s' => d <- hex_val c ;; int16_from (16 * acc + d) s'
  end.

Definition int16 (s : string) : option Z :=
  match s with
  | EmptyString => None
  | _ => int16_from 0 s
  end.

(** The ASCII characters that [str.split()] takes as blanks. *)
Definition is_space (c : ascii) : bool :=
  let n := nat_of_ascii c in
  ((9 <=? n) && (n <=? 13) || (28 <=? n) && (n <=? 32))%nat.

(** [s.split()]: the words between runs of blanks; [word] is the word
    being read. *)
Fixpoint split_from (word : string) (s : string) : list string :=
  match s with
  | EmptyString =>
      match word with
      | EmptyString => []
      | _ => [word]
      end
  | String c s' =>
      if is_space c then
        match word with
        | EmptyString => split_from EmptyString s'
        | _ => word :: split_from EmptyString s'
        end
      else split_from (word ++ String c EmptyString) s'
  end.

Definition split (s : string) : list string := split_from EmptyString s.

(** [s[i:j]] for [0 <= i <= j]; clipped at the end of [s]. *)
Definition slice (s : string) (i j : nat) : string := substring i (j - i) s.

(** [range(0, stop, step)] *)
Definition range0 (stop step : nat) : list nat :=
  map (fun k => (k * step)%nat) (seq 0 ((stop + step - 1) / step)).

(** [l[-k]] for [k >= 1]; [None] is the IndexError. *)
Definition index_neg {A : Type} (l : list A) (k : nat) : option A :=
  if (k <=? List.length l)%nat then nth_error l (List.length l - k) else None.

(** [''.join(l)] *)
Definition join (l : list string) : string := String.concat EmptyString l.

End Py.

(** ** The program *)

Module SHA256.
Import Py.

(** STEP 1: [to_binary] *)
Definition to_binary (msg : ustr) : string :=
  join (map (fun c => format_b 8 (ord c)) msg).

(** STEP 2: [pad_message]; [pad_zeros] is its [while] loop.  The loop
    appends fewer than 512 zeros ([pad_zeros_spec], [pad_count]), so the
    fuel of 512 passes is never used up. *)
Fixpoint pad_zeros (fuel : nat) (bin_msg : string) : option string :=
  if ((length bin_msg + 64) mod 512 =? 0)%nat then Some bin_msg
  else
    match fuel with
    | O => None
    | S fuel' => pad_zeros fuel' (bin_msg ++ "0")
    end.

Definition pad_message (bin_msg : string) : option string :=
  let original_len := length bin_msg in
  let bin_msg := bin_msg ++ "1" in
  bin_msg <- pad_zeros 512 bin_msg ;;
  Some (bin_msg ++ format_b 64 (Z.of_nat original_len)).

(** STEP 3: [create_chunks] *)
Definition create_chunks (padded_msg : string) : list string :=
  map (fun i => slice padded_msg i (i + 512)) (range0 (length padded_msg) 512).

(** One pass of the [while len(words) < 64] body of [create_words]; the
    loop starts from 16 words and appends one per pass, 48 passes in all. *)
Definition extend_step (words : list Z) : option (list Z) :=
  w15 <- index_neg words 15 ;;
  w2 <- index_neg words 2 ;;
  w16 <- index_neg words 16 ;;
  w7 <- index_neg words 7 ;;
  let s0 :=
    Z.lxor
      (Z.lxor (Z.lor (Z.shiftr w15 7) (Z.shiftl w15 (32 - 7)))
              (Z.lor (Z.shiftr w15 18) (Z.shiftl w15 (32 - 18))))
      (Z.shiftr w15 3) in
  let s1 :=
    Z.lxor
      (Z.lxor (Z.lor (Z.shiftr w2 17) (Z.shiftl w2 (32 - 17)))
              (Z.lor (Z.shiftr w2 19) (Z.shiftl w2 (32 - 19))))
      (Z.shiftr w2 10) in
  Some (words ++ [Z.land (w16 + s0 + w7 + s1) 0xFFFFFFFF])%list.

Fixpoint extend_words (fuel : nat) (words : list Z) : option (list Z) :=
  if (List.length words <? 64)%nat then
    match fuel with
    | O => None
    | S fuel' => words' <- extend_step words ;; extend_words fuel' words'
    end
  else Some words.

Definition create_words (chunk : string) : option (list Z) :=
  words <- map_opt (fun i => int2 (slice chunk i (i + 32))) (range0 512 32) ;;
  extend_words 48 words.

(** STEP 4: the constants, each parsed from its text as in the source:
    [[int(x, 16) for x in text.split()]], where [text] is a triple-quoted
    literal.  [K_text] and [H_text] are the two literals. *)
Definition K_text : string := "
        428a2f98 71374491 b5c0fbcf e9b5dba5 3956c25b 59f111f1 923f82a4 ab1c5ed5
        d807aa98 12835b01 243185be 550c7dc3 72be5d74 80deb1fe 9bdc06a7 c19bf174
        e49b69c1 efbe4786 0fc19dc6 240ca1cc 2de92c6f 4a7484aa 5cb0a9dc 76f988da
        983e5152 a831c66d b00327c8 bf597fc7 c6e00bf3 d5a79147 06ca6351 14292967
        27b70a85 2e1b2138 4d2c6dfc 53380d13 650a7354 766a0abb 81c2c92e 92722c85
        a2bfe8a1 a81a664b c24b8b70 c76c51a3 d192e819 d6990624 f40e3585 106aa070
        19a4c116 1e376c08 2748774c 34b0bcb5 391c0cb3 4ed8aa4a 5b9cca4f 682e6ff3
        748f82ee 78a5636f 84c87814 8cc70208 90befffa a4506ceb bef9a3f7 c67178f2
    ".

Definition H_text : string := "
        6a09e667 bb67ae85 3c6ef372 a54ff53a 510e527f 9b05688c 1f83d9ab 5be0cd19
    ".

Definition parse_table (text : string) : option (list Z) :=
  map_opt int16 (split text).

(** The two tables, evaluated ([parse_table_K] and [parse_table_H0] below
    state that no word fails to parse). *)
Definition K : list Z :=
  Eval vm_compute in
    match parse_table K_text with Some table => table | None => [] end.

Definition H0 : list Z :=
  Eval vm_compute in
    match parse_table H_text with Some table => table | None => [] end.

(** [rightrotate]; Python raises ValueError on a negative shift count, so
    this is the source's function for [0 <= n <= 32], which covers every
    call of the program. *)
Definition rightrotate (x n : Z) : Z :=
  Z.land (Z.lor (Z.shiftr x n) (Z.shiftl x (32 - n))) 0xFFFFFFFF.

(** The right-hand side of [ch = (e & f) ^ (~e & g)]; [~e] is [-e - 1]. *)
Definition ch_expr (e f g : Z) : Z :=
  Z.lxor (Z.land e f) (Z.land (Z.lnot e) g).

(** STEP 5: the compression.  The working variables [a .. h]. *)
Record vars : Type := Vars {
  va : Z; vb : Z; vc : Z; vd : Z; ve : Z; vf : Z; vg : Z; vh : Z
}.

(** [a, b, c, d, e, f, g, h = H]; [None] is the ValueError of an unpacking
    of a list that has not exactly eight items. *)
Definition unpack (H : list Z) : option vars :=
  match H with
  | [a; b; c; d; e; f; g; h] => Some (Vars a b c d e f g h)
  | _ => None
  end.

Definition vars_list (v : vars) : list Z :=
  [va v; vb v; vc v; vd v; ve v; vf v; vg v; vh v].

(** The body of [for i in range(64)]. *)
Definition round (w : list Z) (i : nat) (v : vars) : option vars :=
  let '(Vars a b c d e f g h) := v in
  let S1 := Z.lxor (Z.lxor (rightrotate e 6) (rightrotate e 11)) (rightrotate e 25) in
  let ch := ch_expr e f g in
  Ki <- nth_error K i ;;
  wi <- nth_error w i ;;
  let temp1 := Z.land (h + S1 + ch + Ki + wi) 0xFFFFFFFF in
  let S0 := Z.lxor (Z.lxor (rightrotate a 2) (rightrotate a 13)) (rightrotate a 22) in
  let maj := Z.lxor (Z.lxor (Z.land a b) (Z.land a c)) (Z.land b c) in
  let temp2 := Z.land (S0 + maj) 0xFFFFFFFF in
  let h := g in
  let g := f in
  let f := e in
  let e := Z.land (d + temp1) 0xFFFFFFFF in
  let d := c in
  let c := b in
  let b := a in
  let a := Z.land (temp1 + temp2) 0xFFFFFFFF in
  Some (Vars a b c d e f g h).

(** The body of [for chunk in chunks]. *)
Definition process_chunk (chunk : string) (H : list Z) : option (list Z) :=
  w <- create_words chunk ;;
  v <- unpack H ;;
  v <- for_each (round w) (seq 0 64) v ;;
  Some (map (fun '(x, y) => Z.land (x + y) 0xFFFFFFFF) (combine H (vars_list v))).

Definition sha256_simple (message : ustr) : option string :=
  let bin_msg := to_binary message in
  padded <- pad_message bin_msg ;;
  let chunks := create_chunks padded in
  H <- for_each process_chunk chunks H0 ;;
  Some (join (map (fun value => format_x 8 value) H)).

End SHA256.

Import Py SHA256.

(** ** The reading of the specification

  These definitions follow the words of the specification; the theorems
  below compare the program with them. *)

Module Spec.

Definition word32 (x : Z) : Prop := 0 <= x < 2 ^ 32.

(** Circular right rotation of a 32-bit value, and the zero-filling
    right shift. *)
Definition rotr (x n : Z) : Z := x / 2 ^ n + (x mod 2 ^ n) * 2 ^ (32 - n).
Definition shr (x n : Z) : Z := x / 2 ^ n.

(** The 32-bit complement. *)
Definition not32 (x : Z) : Z := 2 ^ 32 - 1 - x.

(** FIPS 180-4 Ch. *)
Definition Ch (e f g : Z) : Z := Z.lxor (Z.land e f) (Z.land (not32 e) g).

(** A string of exactly [k] digits of [n] in [base], most significant
    first. *)
Fixpoint be_digits (base : Z) (k : nat) (n : Z) : string :=
  match k with
  | O => EmptyString
  | S k' => String (digit_char ((n / base ^ Z.of_nat k') mod base)) (be_digits base k' n)
  end.

Definition bit_of (c : ascii) : Z := if Ascii.eqb c "1" then 1 else 0.

(** The value of a bit string read as an unsigned big-endian integer. *)
Fixpoint be_value (s : string) : Z :=
  match s with
  | EmptyString => 0
  | String c s' => bit_of c * 2 ^ Z.of_nat (length s') + be_value s'
  end.

Fixpoint all_chars (p : ascii -> bool) (s : string) : bool :=
  match s with
  | EmptyString => true
  | String c s' => p c && all_chars p s'
  end.

Definition is_bit (c : ascii) : bool := Ascii.eqb c "0" || Ascii.eqb c "1".

Definition is_lower_hex (c : ascii) : bool :=
  let n := nat_of_ascii c in
  ((48 <=? n) && (n <=? 57) || (97 <=? n) && (n <=? 102))%nat.

(** A bit string: only '0' and '1'. *)
Definition bits (s : string) : Prop := all_chars is_bit s = true.

(** A 512-bit block. *)
Definition block (s : string) : Prop := length s = 512%nat /\ bits s.

(** The mixing functions of the schedule and of the rounds. *)
Definition sigma0 (x : Z) : Z := Z.lxor (Z.lxor (rotr x 7) (rotr x 18)) (shr x 3).
Definition sigma1 (x : Z) : Z := Z.lxor (Z.lxor (rotr x 17) (rotr x 19)) (shr x 10).
Definition Sigma0 (a : Z) : Z := Z.lxor (Z.lxor (rotr a 2) (rotr a 13)) (rotr a 22).
Definition Sigma1 (e : Z) : Z := Z.lxor (Z.lxor (rotr e 6) (rotr e 11)) (rotr e 25).
Definition Maj (a b c : Z) : Z :=
  Z.lxor (Z.lxor (Z.land a b) (Z.land a c)) (Z.land b c).

(** The word [W[i]] that the recurrence gives for [16 <= i]. *)
Definition schedule_word (W : list Z) (i : nat) : Z :=
  (nth (i - 16) W 0 + sigma0 (nth (i - 15) W 0)
   + nth (i - 7) W 0 + sigma1 (nth (i - 2) W 0)) mod 2 ^ 32.

(** One round: temp1, temp2 and the shift of the register chain. *)
Definition round_spec (k w : Z) (v : vars) : vars :=
  let temp1 := (vh v + Sigma1 (ve v) + Ch (ve v) (vf v) (vg v) + k + w) mod 2 ^ 32 in
  let temp2 := (Sigma0 (va v) + Maj (va v) (vb v) (vc v)) mod 2 ^ 32 in
  {| vh := vg v;
     vg := vf v;
     vf := ve v;
     ve := (vd v + temp1) mod 2 ^ 32;
     vd := vc v;
     vc := vb v;
     vb := va v;
     va := (temp1 + temp2) mod 2 ^ 32 |}.

(** Rounds [0 .. n-1] on the schedule [W]. *)
Definition rounds_spec (W : list Z) (n : nat) (v : vars) : vars :=
  fold_left (fun v i => round_spec (nth i K 0) (nth i W 0) v) (seq 0 n) v.

(** a = H[0], ..., h = H[7]. *)
Definition init_vars (H : list Z) : vars :=
  {| va := nth 0 H 0; vb := nth 1 H 0; vc := nth 2 H 0; vd := nth 3 H 0;
     ve := nth 4 H 0; vf := nth 5 H 0; vg := nth 6 H 0; vh := nth 7 H 0 |}.

(** H[0] += a, H[1] += b, H[2] += c, H[3] += d, H[4] += e, H[5] += f,
    H[6] += g, H[7] += h, each modulo 2^32. *)
Definition fold_back (H : list Z) (v : vars) : list Z :=
  [ (nth 0 H 0 + va v) mod 2 ^ 32;
    (nth 1 H 0 + vb v) mod 2 ^ 32;
    (nth 2 H 0 + vc v) mod 2 ^ 32;
    (nth 3 H 0 + vd v) mod 2 ^ 32;
    (nth 4 H 0 + ve v) mod 2 ^ 32;
    (nth 5 H 0 + vf v) mod 2 ^ 32;
    (nth 6 H 0 + vg v) mod 2 ^ 32;
    (nth 7 H 0 + vh v) mod 2 ^ 32 ].

(** The compressor on one schedule. *)
Definition compress_spec (H W : list Z) : list Z :=
  fold_back H (rounds_spec W 64 (init_vars H)).

(** A hash state: eight 32-bit words. *)
Definition state32 (H : list Z) : Prop :=
  List.length H = 8%nat /\ Forall word32 H.

Definition vars32 (v : vars) : Prop :=
  word32 (va v) /\ word32 (vb v) /\ word32 (vc v) /\ word32 (vd v) /\
  word32 (ve v) /\ word32 (vf v) /\ word32 (vg v) /\ word32 (vh v).

(** A message all of whose characters are bytes. *)
Definition byte_message (msg : ustr) : Prop := Forall (fun c => (c <= 255)%N) msg.

Definition digest_eqb (x y : option string) : bool :=
  match x, y with
  | Some s, Some t => String.eqb s t
  | None, None => true
  | _, _ => false
  end.

End Spec.

Import Spec.

(** ** Test inputs *)

Module Vectors.

(** The Python [str] of an ASCII literal. *)
Definition ustr_of_string (s : string) : ustr :=
  map N_of_ascii (list_ascii_of_string s).

Definition abc : ustr := ustr_of_string "abc".

(** A block of 512 zero bits. *)
Definition zero_block : string := zeros 512.

(** A string with one character outside the byte range: U+0100. *)
Definition wide : ustr := [256%N].

Definition all_bytes : list N := map N.of_nat (seq 0 256).

End Vectors.

Import Vectors.

(** ** Strings *)

Section Strings.

Lemma length_append (s t : string) : length (s ++ t) = (length s + length t)%nat.
Proof. induction s as [|c s IH]; simpl; [reflexivity | now rewrite IH]. Qed.

Lemma append_assoc (s t u : string) : (s ++ t) ++ u = s ++ (t ++ u).
Proof. induction s as [|c s IH]; simpl; [reflexivity | now rewrite IH]. Qed.

Lemma append_empty_r (s : string) : s ++ EmptyString = s.
Proof. induction s as [|c s IH]; simpl; [reflexivity | now rewrite IH]. Qed.

Lemma length_zeros (k : nat) : length (zeros k) = k.
Proof. induction k; simpl; congruence. Qed.

Lemma all_chars_app p (s t : string) :
  all_chars p (s ++ t) = all_chars p s && all_chars p t.
Proof.
  induction s as [|c s IH]; simpl; [reflexivity|].
  now rewrite IH, andb_assoc.
Qed.

Lemma all_chars_zeros p (k : nat) : p "0"%char = true -> all_chars p (zeros k) = true.
Proof. intros Hp; induction k as [|k IH]; simpl; [reflexivity | now rewrite Hp, IH]. Qed.

Lemma all_chars_substring p (s : string) :
  all_chars p s = true -> forall i n, all_chars p (substring i n s) = true.
Proof.
  induction s as [|c s IH]; intros Hs i n.
  - destruct i, n; reflexivity.
  - simpl in Hs. apply andb_prop in Hs. destruct Hs as [Hc Hs].
    destruct i as [|i].
    + destruct n as [|n]; simpl; [reflexivity|].
      now rewrite Hc, (IH Hs 0%nat n).
    + simpl. now apply IH.
Qed.

Lemma length_substring (s : string) :
  forall i n, (i + n <= length s)%nat -> length (substring i n s) = n.
Proof.
  induction s as [|c s IH]; intros i n Hle; simpl in Hle.
  - assert (i = 0%nat) by lia. assert (n = 0%nat) by lia. now subst.
  - destruct i as [|i].
    + destruct n as [|n]; simpl; [reflexivity|].
      f_equal. apply (IH 0%nat n). lia.
    + simpl. apply IH. lia.
Qed.

Lemma all_chars_join p (l : list string) :
  Forall (fun s => all_chars p s = true) l -> all_chars p (join l) = true.
Proof.
  unfold join. induction 1 as [|s l Hs Hl IH]; [reflexivity|].
  destruct l as [|t l]; simpl; [assumption|].
  simpl in IH. now rewrite all_chars_app, Hs, IH.
Qed.

Lemma join_cons (s : string) (l : list string) : join (s :: l) = s ++ join l.
Proof.
  unfold join. destruct l as [|t l]; simpl; [now rewrite append_empty_r | reflexivity].
Qed.

Lemma length_join (l : list string) (k : nat) :
  Forall (fun s => length s = k) l -> length (join l) = (k * List.length l)%nat.
Proof.
  induction 1 as [|s l Hs Hl IH]; [simpl; lia|].
  rewrite join_cons, length_append, Hs, IH. simpl. lia.
Qed.

End Strings.

(** ** Number formatting *)

Section Digits.

Variable base : Z.
Hypothesis base_ge_2 : 2 <= base.

Lemma be_digits_snoc (k : nat) : forall n,
  be_digits base (S k) n =
  be_digits base k (n / base) ++ String (digit_char (n mod base)) EmptyString.
Proof.
  induction k as [|k IH]; intros n.
  - simpl. now rewrite Z.div_1_r.
  - change (be_digits base (S (S k)) n)
      with (String (digit_char ((n / base ^ Z.of_nat (S k)) mod base))
                   (be_digits base (S k) n)).
    rewrite IH. simpl be_digits at 2. simpl append.
    f_equal. f_equal. f_equal.
    rewrite Nat2Z.inj_succ, Z.pow_succ_r by lia.
    rewrite Z.div_div by (try apply Z.pow_pos_nonneg; lia).
    reflexivity.
Qed.

Lemma be_digits_0 (k : nat) : be_digits base k 0 = zeros k.
Proof.
  induction k as [|k IH]; cbn [be_digits zeros]; [reflexivity|].
  now rewrite Zdiv_0_l, Zmod_0_l, IH.
Qed.

Lemma zfill_snoc (k : nat) (s : string) (c : ascii) :
  zfill (S k) (s ++ String c EmptyString) = zfill k s ++ String c EmptyString.
Proof.
  unfold zfill. rewrite length_append, <- append_assoc. simpl length.
  now replace (S k - (length s + 1))%nat with (k - length s)%nat by lia.
Qed.

Lemma zfill_to_digits (fuel : nat) : forall (k : nat) n,
  0 <= n < base ^ Z.of_nat (S k) -> n < 2 ^ Z.of_nat fuel ->
  zfill (S k) (to_digits base fuel n) = be_digits base (S k) n.
Proof.
  induction fuel as [|fuel IH]; intros k n Hn Hfuel.
  - simpl in Hfuel. assert (n = 0) as -> by lia.
    rewrite be_digits_0. unfold zfill. simpl to_digits. simpl length.
    rewrite append_empty_r, ?Nat.sub_0_r.
    reflexivity.
  - rewrite be_digits_snoc. simpl to_digits.
    destruct (Z.ltb_spec n base) as [Hlt|Hge].
    + rewrite Z.div_small, Z.mod_small, be_digits_0 by lia.
      unfold zfill. simpl length.
      now replace (S k - 1)%nat with k by lia.
    + destruct k as [|k]; [simpl in Hn; lia|].
      rewrite zfill_snoc. f_equal. apply IH.
      * rewrite Nat2Z.inj_succ, Z.pow_succ_r in Hn by lia.
        split; [apply Z.div_pos; lia|].
        apply Z.div_lt_upper_bound; lia.
      * rewrite Nat2Z.inj_succ, Z.pow_succ_r in Hfuel by lia.
        apply Z.div_lt_upper_bound; [lia|].
        assert (0 < 2 ^ Z.of_nat fuel) by (apply Z.pow_pos_nonneg; lia).
        nia.
Qed.

Lemma digits_fuel (n : Z) : 0 <= n -> n < 2 ^ Z.of_nat (S (Z.to_nat (Z.log2 n))).
Proof.
  intros Hn. rewrite Nat2Z.inj_succ, Z2Nat.id by apply Z.log2_nonneg.
  destruct (Z.eq_dec n 0) as [->|Hnz]; [reflexivity|].
  apply Z.log2_spec. lia.
Qed.

(** Formatting a number that fits in the width gives exactly that many
    digits. *)
Lemma format_0_fits (k : nat) (n : Z) :
  0 <= n < base ^ Z.of_nat (S k) -> format_0 base (S k) n = be_digits base (S k) n.
Proof.
  intros Hn. unfold format_0.
  destruct (Z.ltb_spec n 0) as [?|_]; [lia|].
  apply zfill_to_digits; [assumption | apply digits_fuel; lia].
Qed.

Lemma length_be_digits (k : nat) (n : Z) : length (be_digits base k n) = k.
Proof. induction k as [|k IH]; simpl; congruence. Qed.

(** Every digit written is one of the characters of the base. *)
Lemma all_chars_to_digits p (fuel : nat) :
  (forall d, 0 <= d < base -> p (digit_char d) = true) ->
  forall n, 0 <= n -> all_chars p (to_digits base fuel n) = true.
Proof.
  intros Hp. induction fuel as [|fuel IH]; intros n Hn; [reflexivity|].
  simpl. destruct (Z.ltb_spec n base) as [Hlt|Hge].
  - simpl. rewrite Hp by lia. reflexivity.
  - rewrite all_chars_app, IH by (apply Z.div_pos; lia).
    simpl. rewrite Hp by (apply Z.mod_pos_bound; lia). reflexivity.
Qed.

Lemma all_chars_format_0 p (width : nat) (n : Z) :
  p "0"%char = true ->
  (forall d, 0 <= d < base -> p (digit_char d) = true) ->
  0 <= n -> all_chars p (format_0 base width n) = true.
Proof.
  intros H0 Hp Hn. unfold format_0, zfill, digits.
  destruct (Z.ltb_spec n 0) as [?|_]; [lia|].
  rewrite all_chars_app, all_chars_zeros, all_chars_to_digits by assumption.
  reflexivity.
Qed.

End Digits.

(** ** STEP 1 and STEP 2: the bit string and its padding *)

Section Padding.

Lemma is_bit_digit (d : Z) : 0 <= d < 2 -> is_bit (digit_char d) = true.
Proof. intros Hd. assert (d = 0 \/ d = 1) as [-> | ->] by lia; reflexivity. Qed.

Lemma to_binary_cons (c : N) (msg : ustr) :
  to_binary (c :: msg) = format_b 8 (ord c) ++ to_binary msg.
Proof. unfold to_binary. simpl map. apply join_cons. Qed.

Lemma bits_to_binary (msg : ustr) : bits (to_binary msg).
Proof.
  unfold bits, to_binary. apply all_chars_join, Forall_map, Forall_forall.
  intros c _. apply all_chars_format_0;
    [lia | reflexivity | apply is_bit_digit | unfold ord; lia].
Qed.

(** On characters that are bytes, [to_binary] writes exactly eight bits
    each. *)
Lemma to_binary_bytes (msg : ustr) :
  Forall (fun c => (c <= 255)%N) msg ->
  to_binary msg = join (map (fun c => be_digits 2 8 (ord c)) msg).
Proof.
  induction 1 as [|c msg Hc Hmsg IH]; [reflexivity|].
  rewrite to_binary_cons, IH. simpl map. rewrite join_cons. f_equal.
  apply format_0_fits; [lia|]. unfold ord. change (2 ^ Z.of_nat 8) with 256. lia.
Qed.

Lemma length_to_binary_bytes (msg : ustr) :
  Forall (fun c => (c <= 255)%N) msg ->
  length (to_binary msg) = (8 * List.length msg)%nat.
Proof.
  intros Hmsg. rewrite (to_binary_bytes msg Hmsg).
  rewrite (length_join _ 8), length_map; [reflexivity|].
  apply Forall_map, Forall_forall. intros c _. apply length_be_digits.
Qed.

Lemma pad_zeros_eq (fuel : nat) (s : string) :
  pad_zeros fuel s =
  if ((length s + 64) mod 512 =? 0)%nat then Some s
  else match fuel with
       | O => None
       | S fuel' => pad_zeros fuel' (s ++ "0")
       end.
Proof. destruct fuel; reflexivity. Qed.

(** The loop stops after exactly the first [k] that reaches the
    boundary, given fuel for [k] passes. *)
Lemma pad_zeros_spec (k : nat) : forall (fuel : nat) (s : string),
  (k <= fuel)%nat ->
  ((length s + 64 + k) mod 512 = 0)%nat ->
  (forall j, (j < k)%nat -> ((length s + 64 + j) mod 512 <> 0)%nat) ->
  pad_zeros fuel s = Some (s ++ zeros k).
Proof.
  induction k as [|k IH]; intros fuel s Hfuel Hk Hmin; rewrite pad_zeros_eq.
  - rewrite Nat.add_0_r in Hk. rewrite Hk. simpl. now rewrite append_empty_r.
  - destruct (Nat.eqb_spec ((length s + 64) mod 512) 0) as [Hz|_].
    + exfalso. apply (Hmin 0%nat); [lia|]. now rewrite Nat.add_0_r.
    + destruct fuel as [|fuel]; [lia|].
      rewrite (IH fuel (s ++ "0")).
      * rewrite append_assoc. reflexivity.
      * lia.
      * rewrite length_append. simpl length.
        now replace (length s + 1 + 64 + k)%nat with (length s + 64 + S k)%nat by lia.
      * intros j Hj. rewrite length_append. simpl length.
        replace (length s + 1 + 64 + j)%nat with (length s + 64 + S j)%nat by lia.
        apply Hmin. lia.
Qed.

Lemma pad_count (n : nat) :
  exists k, (k < 512)%nat /\ ((n + 64 + k) mod 512 = 0)%nat /\
            forall j, (j < k)%nat -> ((n + 64 + j) mod 512 <> 0)%nat.
Proof.
  exists ((512 - (n + 64) mod 512) mod 512)%nat.
  repeat split; [lia | lia | intros j Hj; lia].
Qed.

(** [pad_message] returns: message, '1', [k] zeros, the length field. *)
Lemma pad_message_spec (s : string) :
  exists k : nat,
    pad_message s =
      Some (s ++ "1" ++ zeros k ++ format_b 64 (Z.of_nat (length s))) /\
    (k < 512)%nat /\
    ((length s + 1 + k) mod 512 = 448)%nat /\
    (forall j, ((length s + 1 + j) mod 512 = 448)%nat -> (k <= j)%nat).
Proof.
  destruct (pad_count (length (s ++ "1"))) as (k & Hk & Hz & Hmin).
  exists k. unfold pad_message.
  rewrite (pad_zeros_spec k 512 (s ++ "1")) by (assumption || lia).
  rewrite length_append in Hz, Hmin. simpl length in Hz, Hmin.
  unfold bind. rewrite !append_assoc. repeat split.
  - assumption.
  - lia.
  - intros j Hj. destruct (Nat.le_gt_cases k j) as [?|Hlt]; [assumption|].
    specialize (Hmin j Hlt). lia.
Qed.

End Padding.

(** ** 32-bit arithmetic on unbounded integers *)

Section Words.

Lemma land_mask (x : Z) : Z.land x 0xFFFFFFFF = x mod 2 ^ 32.
Proof. change 0xFFFFFFFF with (Z.ones 32). apply Z.land_ones. lia. Qed.

Lemma word32_mod (x : Z) : word32 (x mod 2 ^ 32).
Proof. apply Z.mod_pos_bound. reflexivity. Qed.

Lemma land_lxor_distr_l (a b c : Z) :
  Z.land (Z.lxor a b) c = Z.lxor (Z.land a c) (Z.land b c).
Proof.
  apply Z.bits_inj'. intros i _.
  rewrite !Z.land_spec, !Z.lxor_spec, !Z.land_spec.
  destruct (Z.testbit a i), (Z.testbit b i), (Z.testbit c i); reflexivity.
Qed.

Lemma lxor_mod (a b : Z) :
  (Z.lxor a b) mod 2 ^ 32 = Z.lxor (a mod 2 ^ 32) (b mod 2 ^ 32).
Proof. rewrite <- !land_mask. apply land_lxor_distr_l. Qed.

Lemma lor_mod (a b : Z) :
  (Z.lor a b) mod 2 ^ 32 = Z.lor (a mod 2 ^ 32) (b mod 2 ^ 32).
Proof. rewrite <- !land_mask. apply Z.land_lor_distr_l. Qed.

Lemma land_mod_l (a b : Z) : (Z.land a b) mod 2 ^ 32 = Z.land (a mod 2 ^ 32) b.
Proof.
  rewrite <- !land_mask.
  now rewrite <- !Z.land_assoc, (Z.land_comm b).
Qed.

Lemma word32_lxor (a b : Z) : word32 a -> word32 b -> word32 (Z.lxor a b).
Proof.
  intros Ha Hb.
  rewrite <- (Z.mod_small a (2 ^ 32)), <- (Z.mod_small b (2 ^ 32)) by assumption.
  rewrite <- lxor_mod. apply word32_mod.
Qed.

Lemma word32_land (a b : Z) : word32 a -> word32 (Z.land a b).
Proof.
  intros Ha. rewrite <- (Z.mod_small a (2 ^ 32)) by assumption.
  rewrite <- land_mod_l. apply word32_mod.
Qed.

Lemma land_disjoint (a b m : Z) :
  0 <= m -> 0 <= a < 2 ^ m -> Z.land a (b * 2 ^ m) = 0.
Proof.
  intros Hm Ha. apply Z.bits_inj'. intros i Hi.
  rewrite Z.land_spec, Z.bits_0.
  destruct (Z.lt_ge_cases i m) as [Hlt|Hge].
  - rewrite Z.mul_pow2_bits_low by lia. apply andb_false_r.
  - rewrite <- (Z.mod_small a (2 ^ m)) by lia.
    rewrite Z.mod_pow2_bits_high by lia. reflexivity.
Qed.

(** The low 32 bits of [x >> n | x << (32 - n)] are the rotation of [x]. *)
Lemma rot_low32 (x n : Z) :
  word32 x -> 0 < n < 32 ->
  (Z.lor (Z.shiftr x n) (Z.shiftl x (32 - n))) mod 2 ^ 32 = rotr x n.
Proof.
  intros Hx Hn. unfold word32 in Hx.
  assert (Hsplit : 2 ^ 32 = 2 ^ n * 2 ^ (32 - n))
    by (rewrite <- Z.pow_add_r by lia; f_equal; lia).
  assert (0 < 2 ^ n) by (apply Z.pow_pos_nonneg; lia).
  assert (0 < 2 ^ (32 - n)) by (apply Z.pow_pos_nonneg; lia).
  rewrite Z.shiftr_div_pow2, Z.shiftl_mul_pow2 by lia.
  rewrite lor_mod.
  assert (Hq : 0 <= x / 2 ^ n < 2 ^ (32 - n)).
  { split; [apply Z.div_pos; lia | apply Z.div_lt_upper_bound; lia]. }
  rewrite (Z.mod_small (x / 2 ^ n)) by nia.
  rewrite Hsplit at 1. rewrite Z.mul_mod_distr_r by lia.
  unfold rotr. rewrite <- Z.add_lor_land, land_disjoint by lia. lia.
Qed.

Lemma rightrotate_rotr (x n : Z) :
  word32 x -> 0 < n < 32 -> rightrotate x n = rotr x n.
Proof. intros Hx Hn. unfold rightrotate. rewrite land_mask. now apply rot_low32. Qed.

Lemma word32_shr (x n : Z) : word32 x -> 0 <= n -> word32 (shr x n).
Proof.
  intros Hx Hn. unfold shr, word32 in *.
  assert (0 < 2 ^ n) by (apply Z.pow_pos_nonneg; lia).
  split; [apply Z.div_pos; lia | apply Z.div_lt_upper_bound; nia].
Qed.

(** A rotation moves bit [(i + n) mod 32] to bit [i]: it is circular. *)
Lemma rotr_testbit (x n i : Z) :
  word32 x -> 0 < n < 32 -> 0 <= i < 32 ->
  Z.testbit (rotr x n) i = Z.testbit x ((i + n) mod 32).
Proof.
  intros Hx Hn Hi. rewrite <- rot_low32 by assumption.
  rewrite Z.mod_pow2_bits_low by lia.
  rewrite Z.lor_spec, Z.shiftr_spec, Z.shiftl_spec by lia.
  destruct (Z.lt_ge_cases (i + n) 32) as [Hlt|Hge].
  - rewrite (Z.testbit_neg_r x (i - (32 - n))) by lia.
    rewrite orb_false_r. f_equal. lia.
  - replace (Z.testbit x (i + n)) with false.
    + rewrite orb_false_l. f_equal. lia.
    + symmetry. rewrite <- (Z.mod_small x (2 ^ 32)) by assumption.
      apply Z.mod_pow2_bits_high. lia.
Qed.

(** [~e & g] keeps only the bits of the 32-bit complement of [e]. *)
Lemma lnot_land_word (e g : Z) :
  word32 e -> word32 g -> Z.land (Z.lnot e) g = Z.land (not32 e) g.
Proof.
  intros He Hg. unfold word32 in *.
  assert (Hnot : not32 e = (Z.lnot e) mod 2 ^ 32).
  { unfold not32, Z.lnot.
    apply (Z.mod_unique _ _ (-1)); lia. }
  rewrite Hnot, <- land_mod_l.
  symmetry. apply Z.mod_small.
  rewrite Z.land_comm. now apply word32_land.
Qed.

Lemma ch_expr_Ch (e f g : Z) :
  word32 e -> word32 g -> ch_expr e f g = Ch e f g.
Proof. intros He Hg. unfold ch_expr, Ch. now rewrite lnot_land_word. Qed.

Lemma word32_Ch (e f g : Z) : word32 e -> word32 g -> word32 (Ch e f g).
Proof.
  intros He Hg. unfold Ch. apply word32_lxor.
  - now apply word32_land.
  - rewrite Z.land_comm. now apply word32_land.
Qed.

End Words.

(** ** The schedule expander *)

Section Schedule.

Lemma bit_of_range (c : ascii) : 0 <= bit_of c <= 1.
Proof. unfold bit_of. destruct (Ascii.eqb c "1"); lia. Qed.

Lemma be_value_range (s : string) : 0 <= be_value s < 2 ^ Z.of_nat (length s).
Proof.
  induction s as [|c s IH]; [simpl; lia|].
  cbn [be_value length]. rewrite Nat2Z.inj_succ, Z.pow_succ_r by lia.
  pose proof (bit_of_range c). nia.
Qed.

Lemma int2_from_value (s : string) : forall acc,
  bits s -> int2_from acc s = Some (acc * 2 ^ Z.of_nat (length s) + be_value s).
Proof.
  unfold bits. induction s as [|c s IH]; intros acc Hs.
  - simpl. f_equal. lia.
  - cbn [all_chars] in Hs. apply andb_prop in Hs. destruct Hs as [Hc Hs].
    cbn [int2_from be_value length].
    rewrite Nat2Z.inj_succ, Z.pow_succ_r by lia.
    unfold is_bit in Hc. unfold bit_of.
    destruct (Ascii.eqb_spec c "0") as [->|H0].
    + rewrite (IH _ Hs). simpl Ascii.eqb. f_equal. lia.
    + destruct (Ascii.eqb_spec c "1") as [->|H1]; [|discriminate].
      rewrite (IH _ Hs). f_equal. lia.
Qed.

Lemma int2_bits (s : string) :
  bits s -> (0 < length s)%nat -> int2 s = Some (be_value s).
Proof.
  intros Hs Hlen. destruct s as [|c s]; [simpl in Hlen; lia|].
  unfold int2. rewrite int2_from_value by assumption. f_equal.
Qed.

Lemma map_opt_Some {A B : Type} (f : A -> option B) (g : A -> B) (l : list A) :
  Forall (fun x => f x = Some (g x)) l -> map_opt f l = Some (map g l).
Proof.
  induction 1 as [|x l Hx Hl IH]; [reflexivity|].
  simpl. now rewrite Hx, IH.
Qed.

(** The first sixteen words of a block. *)
Lemma block_words (chunk : string) :
  block chunk ->
  map_opt (fun i => int2 (slice chunk i (i + 32))) (range0 512 32) =
  Some (map (fun i => be_value (substring (32 * i) 32 chunk)) (seq 0 16)).
Proof.
  intros [Hlen Hbits].
  change (range0 512 32) with (map (fun k => k * 32)%nat (seq 0 16)).
  rewrite (map_opt_Some _ (fun i => be_value (substring i 32 chunk))).
  - rewrite map_map. apply f_equal, map_ext. intros i. now rewrite Nat.mul_comm.
  - apply Forall_map, Forall_forall. intros i Hi. apply in_seq in Hi.
    unfold slice. replace (i * 32 + 32 - i * 32)%nat with 32%nat by lia.
    apply int2_bits.
    + now apply all_chars_substring.
    + rewrite length_substring; lia.
Qed.

Lemma index_neg_nth {A : Type} (l : list A) (k : nat) (d : A) :
  (1 <= k <= List.length l)%nat ->
  index_neg l k = Some (nth (List.length l - k) l d).
Proof.
  intros Hk. unfold index_neg.
  destruct (Nat.leb_spec k (List.length l)) as [_|?]; [|lia].
  apply nth_error_nth'. lia.
Qed.

Lemma small_sigma0_low32 (x : Z) :
  word32 x ->
  (Z.lxor
     (Z.lxor (Z.lor (Z.shiftr x 7) (Z.shiftl x (32 - 7)))
             (Z.lor (Z.shiftr x 18) (Z.shiftl x (32 - 18))))
     (Z.shiftr x 3)) mod 2 ^ 32 = sigma0 x.
Proof.
  intros Hx. rewrite !lxor_mod, !rot_low32 by (assumption || lia).
  rewrite Z.shiftr_div_pow2 by lia.
  rewrite (Z.mod_small (x / 2 ^ 3)) by (apply (word32_shr x 3); [assumption | lia]).
  reflexivity.
Qed.

Lemma small_sigma1_low32 (x : Z) :
  word32 x ->
  (Z.lxor
     (Z.lxor (Z.lor (Z.shiftr x 17) (Z.shiftl x (32 - 17)))
             (Z.lor (Z.shiftr x 19) (Z.shiftl x (32 - 19))))
     (Z.shiftr x 10)) mod 2 ^ 32 = sigma1 x.
Proof.
  intros Hx. rewrite !lxor_mod, !rot_low32 by (assumption || lia).
  rewrite Z.shiftr_div_pow2 by lia.
  rewrite (Z.mod_small (x / 2 ^ 10)) by (apply (word32_shr x 10); [assumption | lia]).
  reflexivity.
Qed.

(** The sum is masked, so the bits above 32 of its terms do not matter. *)
Lemma add4_mod (a s b t : Z) :
  (a + s + b + t) mod 2 ^ 32 = (a + s mod 2 ^ 32 + b + t mod 2 ^ 32) mod 2 ^ 32.
Proof. change (2 ^ 32) with 4294967296. lia. Qed.

Lemma extend_step_spec (words : list Z) :
  (16 <= List.length words)%nat -> Forall word32 words ->
  extend_step words =
  Some (words ++ [schedule_word words (List.length words)])%list.
Proof.
  intros Hlen Hw. unfold extend_step.
  rewrite !(index_neg_nth words _ 0) by lia. unfold bind. do 2 f_equal.
  rewrite land_mask, add4_mod.
  assert (Hnth : forall i, (i < List.length words)%nat -> word32 (nth i words 0)).
  { intros i Hi. rewrite Forall_forall in Hw. apply Hw, nth_In, Hi. }
  rewrite small_sigma0_low32, small_sigma1_low32 by (apply Hnth; lia).
  reflexivity.
Qed.

Lemma extend_words_eq (fuel : nat) (words : list Z) :
  extend_words fuel words =
  if (List.length words <? 64)%nat then
    match fuel with
    | O => None
    | S fuel' => words' <- extend_step words ;; extend_words fuel' words'
    end
  else Some words.
Proof. destruct fuel; reflexivity. Qed.

(** A word of the recurrence depends on the earlier words only. *)
Lemma schedule_word_app (words rest : list Z) (i : nat) :
  (16 <= i <= List.length words)%nat ->
  schedule_word (words ++ rest) i = schedule_word words i.
Proof.
  intros Hi. unfold schedule_word. now rewrite !app_nth1 by lia.
Qed.

Lemma extend_words_spec (fuel : nat) : forall words : list Z,
  (16 <= List.length words <= 64)%nat ->
  (64 - List.length words <= fuel)%nat ->
  Forall word32 words ->
  (forall i, (16 <= i < List.length words)%nat -> nth i words 0 = schedule_word words i) ->
  exists W,
    extend_words fuel words = Some W /\
    List.length W = 64%nat /\
    Forall word32 W /\
    (forall i, (i < List.length words)%nat -> nth i W 0 = nth i words 0) /\
    (forall i, (16 <= i < 64)%nat -> nth i W 0 = schedule_word W i).
Proof.
  induction fuel as [|fuel IH]; intros words Hlen Hfuel Hw Hrec;
    rewrite extend_words_eq;
    destruct (Nat.ltb_spec (List.length words) 64) as [Hlt|Hge].
  - lia.
  - exists words. repeat split; try assumption; try lia.
    intros i Hi. apply Hrec. lia.
  - rewrite extend_step_spec by (assumption || lia). unfold bind.
    set (x := schedule_word words (List.length words)).
    destruct (IH (words ++ [x])%list) as (W & HW & HlenW & Hw32 & Hpre & HrecW).
    + rewrite length_app. cbn [List.length]. lia.
    + rewrite length_app. cbn [List.length]. lia.
    + apply Forall_app. split; [assumption|].
      apply Forall_cons; [apply word32_mod | apply Forall_nil].
    + rewrite length_app. cbn [List.length]. intros i Hi.
      rewrite schedule_word_app by lia.
      destruct (Nat.eq_dec i (List.length words)) as [->|Hne].
      * now rewrite nth_middle.
      * rewrite app_nth1 by lia. apply Hrec. lia.
    + exists W. repeat split; try assumption.
      intros i Hi. rewrite Hpre by (rewrite length_app; cbn [List.length]; lia).
      apply app_nth1. lia.
  - exists words. repeat split; try assumption; try lia.
    intros i Hi. apply Hrec. lia.
Qed.

Lemma nth_map_seq {A : Type} (f : nat -> A) (n i : nat) (d : A) :
  (i < n)%nat -> nth i (map f (seq 0 n)) d = f i.
Proof.
  intros Hi. rewrite (nth_indep _ d (f 0%nat)) by (now rewrite length_map, length_seq).
  rewrite map_nth, seq_nth by assumption. reflexivity.
Qed.

(** The schedule of a block: defined, 64 words of 32 bits, the first
    sixteen read from the block and the others given by the recurrence. *)
Lemma create_words_spec (chunk : string) :
  block chunk ->
  exists W,
    create_words chunk = Some W /\
    List.length W = 64%nat /\
    Forall word32 W /\
    (forall i, (i < 16)%nat -> nth i W 0 = be_value (substring (32 * i) 32 chunk)) /\
    (forall i, (16 <= i < 64)%nat -> nth i W 0 = schedule_word W i).
Proof.
  intros Hblock. unfold create_words. rewrite block_words by assumption.
  unfold bind. destruct Hblock as [Hlen Hbits].
  set (f := fun i : nat => be_value (substring (32 * i) 32 chunk)).
  assert (Hlen16 : List.length (map f (seq 0 16)) = 16%nat)
    by (now rewrite length_map, length_seq).
  destruct (extend_words_spec 48 (map f (seq 0 16)))
    as (W & HW & HlenW & Hw32 & Hpre & HrecW).
  - lia.
  - lia.
  - apply Forall_map, Forall_forall. intros i Hi. apply in_seq in Hi.
    unfold f, word32. pose proof (be_value_range (substring (32 * i) 32 chunk)) as Hr.
    rewrite length_substring in Hr by lia. exact Hr.
  - intros i Hi. lia.
  - exists W. repeat split; try assumption.
    intros i Hi. rewrite Hpre by lia. apply (nth_map_seq f 16 i 0 Hi).
Qed.

End Schedule.

(** ** The compressor *)

Section Compression.

Lemma vars32_inv (a b c d e f g h : Z) :
  vars32 (Vars a b c d e f g h) ->
  word32 a /\ word32 b /\ word32 c /\ word32 d /\
  word32 e /\ word32 f /\ word32 g /\ word32 h.
Proof.
  unfold vars32. cbn [va vb vc vd ve vf vg vh]. intros Hv. exact Hv.
Qed.

Lemma vars32_round_spec (k w : Z) (v : vars) : vars32 v -> vars32 (round_spec k w v).
Proof.
  destruct v as [a b c d e f g h]. intros Hv.
  apply vars32_inv in Hv. destruct Hv as (Ha & Hb & Hc & Hd & He & Hf & Hg & Hh).
  unfold vars32, round_spec. cbn [va vb vc vd ve vf vg vh].
  repeat (split; [first [assumption | apply word32_mod]|]). assumption.
Qed.

(** One pass of the round loop is one round of the specification. *)
Lemma round_refines (W : list Z) (i : nat) (v : vars) :
  (i < 64)%nat -> List.length W = 64%nat -> vars32 v ->
  round W i v = Some (round_spec (nth i K 0) (nth i W 0) v).
Proof.
  intros Hi HW Hv. destruct v as [a b c d e f g h].
  apply vars32_inv in Hv. destruct Hv as (Ha & Hb & Hc & Hd & He & Hf & Hg & Hh).
  unfold round.
  rewrite (nth_error_nth' K 0) by (change (List.length K) with 64%nat; lia).
  rewrite (nth_error_nth' W 0) by lia.
  unfold bind, round_spec, Sigma0, Sigma1, Maj. cbn [va vb vc vd ve vf vg vh].
  rewrite !land_mask, !rightrotate_rotr, ch_expr_Ch by (assumption || lia).
  reflexivity.
Qed.

Lemma rounds_refine (W : list Z) (n : nat) : forall (s : nat) (v : vars),
  (s + n <= 64)%nat -> List.length W = 64%nat -> vars32 v ->
  for_each (round W) (seq s n) v =
  Some (fold_left (fun v i => round_spec (nth i K 0) (nth i W 0) v) (seq s n) v).
Proof.
  induction n as [|n IH]; intros s v Hs HW Hv; [reflexivity|].
  cbn [seq for_each fold_left].
  rewrite round_refines by (assumption || lia). unfold bind.
  apply IH; [lia | assumption | now apply vars32_round_spec].
Qed.

Lemma state32_compress_spec (H W : list Z) : state32 (compress_spec H W).
Proof.
  unfold compress_spec, fold_back. split; [reflexivity|].
  repeat (apply Forall_cons; [apply word32_mod|]). apply Forall_nil.
Qed.

(** The body of the chunk loop is the compressor of the specification. *)
Lemma process_chunk_refines (chunk : string) (H W : list Z) :
  create_words chunk = Some W -> List.length W = 64%nat -> state32 H ->
  process_chunk chunk H = Some (compress_spec H W).
Proof.
  intros Hcw HW [Hlen H32]. unfold process_chunk. rewrite Hcw. unfold bind at 1.
  destruct H as [|h0 [|h1 [|h2 [|h3 [|h4 [|h5 [|h6 [|h7 [|h8 H]]]]]]]]];
    try discriminate Hlen.
  cbn [unpack]. unfold bind at 1.
  assert (Hv : vars32 (Vars h0 h1 h2 h3 h4 h5 h6 h7)).
  { unfold vars32. cbn [va vb vc vd ve vf vg vh].
    repeat (apply Forall_cons_iff in H32; destruct H32 as [? H32]).
    repeat (split; [assumption|]). assumption. }
  rewrite rounds_refine by (assumption || lia).
  unfold bind, compress_spec, rounds_spec, init_vars. cbn [nth].
  set (v := fold_left _ _ _).
  unfold fold_back, vars_list. cbn [combine map nth].
  rewrite !land_mask. reflexivity.
Qed.

(** Blocks are compressed one after the other, each from the state the
    previous one left. *)
Lemma process_chunks_refine (chunks : list string) : forall H : list Z,
  Forall block chunks -> state32 H ->
  exists Ws,
    map_opt create_words chunks = Some Ws /\
    List.length Ws = List.length chunks /\
    for_each process_chunk chunks H = Some (fold_left compress_spec Ws H) /\
    state32 (fold_left compress_spec Ws H).
Proof.
  induction chunks as [|chunk chunks IH]; intros H Hblocks HH.
  - exists []. repeat split; try reflexivity; apply HH.
  - apply Forall_cons_iff in Hblocks. destruct Hblocks as [Hblock Hblocks].
    destruct (create_words_spec chunk Hblock) as (W & HW & HlenW & _).
    destruct (IH (compress_spec H W) Hblocks (state32_compress_spec H W))
      as (Ws & HWs & HlenWs & Hrun & Hstate).
    exists (W :: Ws). cbn [map_opt for_each fold_left List.length].
    rewrite HW, HWs, (process_chunk_refines chunk H W) by assumption.
    unfold bind. split; [reflexivity|]. split; [now rewrite HlenWs|].
    split; assumption.
Qed.

End Compression.

(** ** The whole digest *)

Section Digest.

Lemma is_lower_hex_digit (d : Z) : 0 <= d < 16 -> is_lower_hex (digit_char d) = true.
Proof.
  intros Hd.
  assert (d = 0 \/ d = 1 \/ d = 2 \/ d = 3 \/ d = 4 \/ d = 5 \/ d = 6 \/ d = 7 \/
          d = 8 \/ d = 9 \/ d = 10 \/ d = 11 \/ d = 12 \/ d = 13 \/ d = 14 \/ d = 15)
    as Hcases by lia.
  repeat (destruct Hcases as [-> | Hcases]; [reflexivity|]).
  subst d. reflexivity.
Qed.

Lemma all_chars_be_digits p (base : Z) (k : nat) (n : Z) :
  0 < base ->
  (forall d, 0 <= d < base -> p (digit_char d) = true) ->
  all_chars p (be_digits base k n) = true.
Proof.
  intros Hbase Hp. induction k as [|k IH]; [reflexivity|].
  cbn [be_digits all_chars]. rewrite IH, Hp by (apply Z.mod_pos_bound; lia).
  reflexivity.
Qed.

(** The length field of a message of fewer than 2^64 bits. *)
Lemma length_field (n : nat) :
  Z.of_nat n < 2 ^ 64 -> format_b 64 (Z.of_nat n) = be_digits 2 64 (Z.of_nat n).
Proof. intros Hn. apply (format_0_fits 2); [lia|]. change (Z.of_nat 64) with 64. lia. Qed.

(** The value that the source prints as expected for "a". *)
Lemma digest_a :
  sha256_simple (ustr_of_string "a") =
    Some "ca978112ca1bbdcafac231b39a23dc4da786eff8147c4e72b9807785afee48bb".
Proof. vm_compute. reflexivity. Qed.

(** From 2^64 bits on the length no longer fits the 64 digits of its
    field: the field grows and the padded length leaves the 512 grid. *)
Lemma length_field_overflow : length (format_b 64 (2 ^ 64)) = 65%nat.
Proof. vm_compute. reflexivity. Qed.

(** The padded message of a bit string of fewer than 2^64 bits. *)
Lemma padded_shape (s : string) :
  bits s -> Z.of_nat (length s) < 2 ^ 64 ->
  exists (k : nat) (p : string),
    pad_message s = Some p /\
    p = s ++ "1" ++ zeros k ++ be_digits 2 64 (Z.of_nat (length s)) /\
    (k < 512)%nat /\
    ((length s + 1 + k) mod 512 = 448)%nat /\
    (forall j, ((length s + 1 + j) mod 512 = 448)%nat -> (k <= j)%nat) /\
    length p = (length s + 1 + k + 64)%nat /\
    bits p.
Proof.
  intros Hs Hlen. destruct (pad_message_spec s) as (k & Hp & Hk & Hmod & Hmin).
  rewrite length_field in Hp by assumption.
  eexists k, _. split; [exact Hp|]. split; [reflexivity|].
  split; [assumption|]. split; [assumption|]. split; [assumption|]. split.
  - rewrite !length_append, length_zeros, length_be_digits. simpl length. lia.
  - unfold bits in *. rewrite !all_chars_app, Hs, all_chars_zeros by reflexivity.
    rewrite all_chars_be_digits; [reflexivity | lia | apply is_bit_digit].
Qed.

(** STEP 3 cuts a string of [512 * m] bits into [m] blocks, in order. *)
Lemma create_chunks_blocks (s : string) (m : nat) :
  bits s -> length s = (512 * m)%nat ->
  create_chunks s = map (fun k => substring (512 * k) 512 s) (seq 0 m) /\
  Forall block (create_chunks s).
Proof.
  intros Hs Hlen.
  assert (Heq : create_chunks s = map (fun k => substring (512 * k) 512 s) (seq 0 m)).
  { unfold create_chunks, range0. rewrite Hlen.
    replace ((512 * m + 512 - 1) / 512)%nat with m by lia.
    rewrite map_map. apply map_ext. intros k. unfold slice.
    f_equal; lia. }
  split; [assumption|]. rewrite Heq.
  apply Forall_map, Forall_forall. intros k Hk. apply in_seq in Hk. split.
  - apply length_substring. lia.
  - now apply all_chars_substring.
Qed.

Lemma format_x_word (v : Z) : word32 v -> format_x 8 v = be_digits 16 8 v.
Proof.
  intros Hv. apply (format_0_fits 16); [lia|].
  change (16 ^ Z.of_nat 8) with (2 ^ 32). exact Hv.
Qed.

(** Every word of the two constant texts parses. *)
Lemma parse_table_K : parse_table K_text = Some K /\ List.length K = 64%nat.
Proof. split; vm_compute; reflexivity. Qed.

Lemma parse_table_H0 : parse_table H_text = Some H0 /\ List.length H0 = 8%nat.
Proof. split; vm_compute; reflexivity. Qed.

Lemma state32_H0 : state32 H0.
Proof.
  split; [reflexivity|]. unfold H0, word32.
  repeat (apply Forall_cons; [lia|]). apply Forall_nil.
Qed.

(** The digest of a message of fewer than 2^64 bits: defined, and the
    serialization of the state that the blocks of the padded message
    leave. *)
Lemma sha256_simple_spec (message : ustr) :
  Z.of_nat (length (to_binary message)) < 2 ^ 64 ->
  exists (padded : string) (H : list Z),
    pad_message (to_binary message) = Some padded /\
    for_each process_chunk (create_chunks padded) H0 = Some H /\
    state32 H /\
    sha256_simple message = Some (join (map (be_digits 16 8) H)).
Proof.
  intros Hlen.
  destruct (padded_shape (to_binary message) (bits_to_binary message) Hlen)
    as (k & p & Hp & _ & _ & Hmod & _ & Hlenp & Hbits).
  destruct (create_chunks_blocks p (length p / 512) Hbits) as [_ Hblocks]; [lia|].
  destruct (process_chunks_refine (create_chunks p) H0 Hblocks state32_H0)
    as (Ws & _ & _ & Hrun & Hstate).
  exists p, (fold_left compress_spec Ws H0).
  split; [assumption|]. split; [assumption|]. split; [assumption|].
  unfold sha256_simple. rewrite Hp. unfold bind at 1. rewrite Hrun. unfold bind.
  do 2 f_equal. apply map_ext_in. intros v Hv. apply format_x_word.
  destruct Hstate as [_ H32]. rewrite Forall_forall in H32. now apply H32.
Qed.

End Digest.

(** ** The claims *)

Section Claims.

(** C1: for the three-character input "abc" the digest computation
    returns exactly the 64-character lowercase hexadecimal string
    ba7816bf8f01cfea414140de5dae2223b00361a396177a9cb410ff61f20015ad. *)
Theorem digest_abc :
  sha256_simple (ustr_of_string "abc") =
    Some "ba7816bf8f01cfea414140de5dae2223b00361a396177a9cb410ff61f20015ad" /\
  length "ba7816bf8f01cfea414140de5dae2223b00361a396177a9cb410ff61f20015ad" = 64%nat.
Proof. split; vm_compute; reflexivity. Qed.

(** C2: for the empty input the digest computation is defined (no error)
    and returns exactly the 64-character lowercase hexadecimal string
    e3b0c44298fc1c149afbf4c8996fb92427ae41e4649b934ca495991b7852b855. *)
Theorem digest_empty :
  sha256_simple [] =
    Some "e3b0c44298fc1c149afbf4c8996fb92427ae41e4649b934ca495991b7852b855" /\
  length "e3b0c44298fc1c149afbf4c8996fb92427ae41e4649b934ca495991b7852b855" = 64%nat.
Proof. split; vm_compute; reflexivity. Qed.

(** C3: for every 512-bit block, [create_words] returns 64 words W; for
    i < 16, W[i] is the i-th 32-bit slice of the block read as an unsigned
    big-endian integer; for 16 <= i < 64,
    W[i] = (W[i-16] + s0 + W[i-7] + s1) mod 2^32 with
    s0 = rotr(W[i-15],7) xor rotr(W[i-15],18) xor shr(W[i-15],3) and
    s1 = rotr(W[i-2],17) xor rotr(W[i-2],19) xor shr(W[i-2],10). *)
Theorem create_words_schedule (chunk : string) :
  block chunk ->
  exists W,
    create_words chunk = Some W /\
    List.length W = 64%nat /\
    (forall i, (i < 16)%nat ->
       nth i W 0 = be_value (substring (32 * i) 32 chunk) /\
       0 <= nth i W 0 < 2 ^ 32) /\
    (forall i, (16 <= i < 64)%nat ->
       let s0 := Z.lxor (Z.lxor (rotr (nth (i - 15) W 0) 7) (rotr (nth (i - 15) W 0) 18))
                        (shr (nth (i - 15) W 0) 3) in
       let s1 := Z.lxor (Z.lxor (rotr (nth (i - 2) W 0) 17) (rotr (nth (i - 2) W 0) 19))
                        (shr (nth (i - 2) W 0) 10) in
       nth i W 0 = (nth (i - 16) W 0 + s0 + nth (i - 7) W 0 + s1) mod 2 ^ 32).
Proof.
  intros Hblock.
  destruct (create_words_spec chunk Hblock) as (W & HW & Hlen & H32 & Hfirst & Hrec).
  exists W. split; [assumption|]. split; [assumption|]. split.
  - intros i Hi. split; [now apply Hfirst|].
    rewrite Forall_forall in H32. apply H32, nth_In. lia.
  - intros i Hi. apply (Hrec i Hi).
Qed.

Lemma create_words_schedule_witness :
  block zero_block /\
  exists W,
    create_words zero_block = Some W /\
    List.length W = 64%nat /\
    (forall i, (i < 16)%nat ->
       nth i W 0 = be_value (substring (32 * i) 32 zero_block) /\
       0 <= nth i W 0 < 2 ^ 32) /\
    (forall i, (16 <= i < 64)%nat ->
       let s0 := Z.lxor (Z.lxor (rotr (nth (i - 15) W 0) 7) (rotr (nth (i - 15) W 0) 18))
                        (shr (nth (i - 15) W 0) 3) in
       let s1 := Z.lxor (Z.lxor (rotr (nth (i - 2) W 0) 17) (rotr (nth (i - 2) W 0) 19))
                        (shr (nth (i - 2) W 0) 10) in
       nth i W 0 = (nth (i - 16) W 0 + s0 + nth (i - 7) W 0 + s1) mod 2 ^ 32).
Proof.
  assert (Hb : block zero_block) by (split; vm_compute; reflexivity).
  split; [exact Hb | exact (create_words_schedule zero_block Hb)].
Defined.

(** C4: for every block the compressor starts the working variables
    a..h from the current hash state, runs the 64 rounds (each ending with
    the shift h<-g, g<-f, f<-e, e<-(d+temp1) mod 2^32, d<-c, c<-b, b<-a,
    a<-(temp1+temp2) mod 2^32) and adds them back modulo 2^32, a to H[0],
    b to H[1], ..., h to H[7] ([compress_spec], with [init_vars],
    [round_spec] and [fold_back]); the blocks are taken once each, in
    order, the state left by one block being the input of the next. *)
Theorem compressor_folds_blocks_in_order (chunks : list string) (H : list Z) :
  Forall block chunks -> state32 H ->
  exists Ws,
    map_opt create_words chunks = Some Ws /\
    List.length Ws = List.length chunks /\
    for_each process_chunk chunks H = Some (fold_left compress_spec Ws H).
Proof.
  intros Hblocks HH.
  destruct (process_chunks_refine chunks H Hblocks HH) as (Ws & HWs & Hlen & Hrun & _).
  exists Ws. split; [assumption|]. split; assumption.
Qed.

Lemma compressor_folds_blocks_in_order_witness :
  Forall block [zero_block; zero_block] /\ state32 H0 /\
  exists Ws,
    map_opt create_words [zero_block; zero_block] = Some Ws /\
    List.length Ws = List.length [zero_block; zero_block] /\
    for_each process_chunk [zero_block; zero_block] H0 =
      Some (fold_left compress_spec Ws H0).
Proof.
  assert (Hb : block zero_block) by (split; vm_compute; reflexivity).
  assert (Hbs : Forall block [zero_block; zero_block])
    by (apply Forall_cons; [exact Hb | apply Forall_cons; [exact Hb | apply Forall_nil]]).
  split; [exact Hbs|]. split; [exact state32_H0|].
  exact (compressor_folds_blocks_in_order [zero_block; zero_block] H0 Hbs state32_H0).
Defined.

(** C5: for an input of L bytes (Lb = 8L bits, Lb below 2^64) the
    padded message is the message bits, most significant bit first per
    byte, then one 1 bit, then the least number k of 0 bits (possibly
    none) that brings the length to 448 modulo 512, then Lb as a
    big-endian 64-bit integer; its length is a multiple of 512 and at
    least Lb + 65. *)
Theorem pad_message_layout (msg : ustr) :
  byte_message msg ->
  Z.of_nat (8 * List.length msg) < 2 ^ 64 ->
  exists (k : nat) (padded : string),
    pad_message (to_binary msg) = Some padded /\
    padded =
      join (map (fun c => be_digits 2 8 (ord c)) msg) ++ "1" ++ zeros k
        ++ be_digits 2 64 (Z.of_nat (8 * List.length msg)) /\
    ((8 * List.length msg + 1 + k) mod 512 = 448)%nat /\
    (forall j, ((8 * List.length msg + 1 + j) mod 512 = 448)%nat -> (k <= j)%nat) /\
    (length padded mod 512 = 0)%nat /\
    (8 * List.length msg + 65 <= length padded)%nat.
Proof.
  intros Hbytes Hlen.
  pose proof (length_to_binary_bytes msg Hbytes) as Hbin.
  destruct (padded_shape (to_binary msg) (bits_to_binary msg))
    as (k & p & Hp & Heq & Hk & Hmod & Hmin & Hlenp & _).
  { now rewrite Hbin. }
  rewrite Hbin in Heq, Hmod, Hmin, Hlenp.
  rewrite (to_binary_bytes msg Hbytes) in Heq.
  exists k, p. split; [assumption|]. split; [assumption|].
  split; [assumption|]. split; [assumption|]. split; lia.
Qed.

Lemma pad_message_layout_witness :
  byte_message abc /\
  Z.of_nat (8 * List.length abc) < 2 ^ 64 /\
  exists (k : nat) (padded : string),
    pad_message (to_binary abc) = Some padded /\
    padded =
      join (map (fun c => be_digits 2 8 (ord c)) abc) ++ "1" ++ zeros k
        ++ be_digits 2 64 (Z.of_nat (8 * List.length abc)) /\
    ((8 * List.length abc + 1 + k) mod 512 = 448)%nat /\
    (forall j, ((8 * List.length abc + 1 + j) mod 512 = 448)%nat -> (k <= j)%nat) /\
    (length padded mod 512 = 0)%nat /\
    (8 * List.length abc + 65 <= length padded)%nat.
Proof.
  assert (Hb : byte_message abc)
    by (repeat (apply Forall_cons; [vm_compute; discriminate|]); apply Forall_nil).
  assert (Hl : Z.of_nat (8 * List.length abc) < 2 ^ 64) by (vm_compute; reflexivity).
  split; [exact Hb|]. split; [exact Hl|].
  exact (pad_message_layout abc Hb Hl).
Defined.

(** C6: for every input byte length L (8L below 2^64) the bit length of
    the padded message is the smallest multiple of 512 that is at least
    8L + 65. *)
Theorem padded_length_smallest_multiple (msg : ustr) :
  byte_message msg ->
  Z.of_nat (8 * List.length msg) < 2 ^ 64 ->
  exists padded : string,
    pad_message (to_binary msg) = Some padded /\
    (512 | Z.of_nat (length padded)) /\
    8 * Z.of_nat (List.length msg) + 65 <= Z.of_nat (length padded) /\
    (forall m : Z,
       (512 | m) -> 8 * Z.of_nat (List.length msg) + 65 <= m ->
       Z.of_nat (length padded) <= m).
Proof.
  intros Hbytes Hlen.
  pose proof (length_to_binary_bytes msg Hbytes) as Hbin.
  destruct (padded_shape (to_binary msg) (bits_to_binary msg))
    as (k & p & Hp & _ & Hk & Hmod & _ & Hlenp & _).
  { now rewrite Hbin. }
  rewrite Hbin in Hmod, Hlenp.
  exists p. split; [assumption|]. split; [|split].
  - exists (Z.of_nat (length p / 512)). lia.
  - lia.
  - intros m [q Hq] Hm. lia.
Qed.

Lemma padded_length_smallest_multiple_witness :
  byte_message abc /\
  Z.of_nat (8 * List.length abc) < 2 ^ 64 /\
  exists padded : string,
    pad_message (to_binary abc) = Some padded /\
    (512 | Z.of_nat (length padded)) /\
    8 * Z.of_nat (List.length abc) + 65 <= Z.of_nat (length padded) /\
    (forall m : Z,
       (512 | m) -> 8 * Z.of_nat (List.length abc) + 65 <= m ->
       Z.of_nat (length padded) <= m).
Proof.
  assert (Hb : byte_message abc)
    by (repeat (apply Forall_cons; [vm_compute; discriminate|]); apply Forall_nil).
  assert (Hl : Z.of_nat (8 * List.length abc) < 2 ^ 64) by (vm_compute; reflexivity).
  split; [exact Hb|]. split; [exact Hl|].
  exact (padded_length_smallest_multiple abc Hb Hl).
Defined.

(** C7: for every block, every word of the 64-word schedule that
    [create_words] returns is a nonnegative integer below 2^32; the
    additions wrap and raise no error. *)
Theorem schedule_words_32bit (chunk : string) :
  block chunk ->
  exists W,
    create_words chunk = Some W /\
    List.length W = 64%nat /\
    Forall (fun w => 0 <= w < 2 ^ 32) W.
Proof.
  intros Hblock.
  destruct (create_words_spec chunk Hblock) as (W & HW & Hlen & H32 & _).
  exists W. split; [assumption|]. split; assumption.
Qed.

Lemma schedule_words_32bit_witness :
  block zero_block /\
  exists W,
    create_words zero_block = Some W /\
    List.length W = 64%nat /\
    Forall (fun w => 0 <= w < 2 ^ 32) W.
Proof.
  assert (Hb : block zero_block) by (split; vm_compute; reflexivity).
  split; [exact Hb | exact (schedule_words_32bit zero_block Hb)].
Defined.

(** C8: for every input (of fewer than 2^64 bits) the digest computation
    returns a string of exactly 64 characters, each a lowercase
    hexadecimal digit: the final 8-word hash state written word by word,
    eight hexadecimal digits per word, most significant first. *)
Theorem digest_is_64_lower_hex (message : ustr) :
  Z.of_nat (length (to_binary message)) < 2 ^ 64 ->
  exists (padded : string) (H : list Z) (digest : string),
    pad_message (to_binary message) = Some padded /\
    for_each process_chunk (create_chunks padded) H0 = Some H /\
    List.length H = 8%nat /\
    sha256_simple message = Some digest /\
    digest = join (map (be_digits 16 8) H) /\
    length digest = 64%nat /\
    all_chars is_lower_hex digest = true.
Proof.
  intros Hlen.
  destruct (sha256_simple_spec message Hlen) as (p & H & Hp & Hrun & [HlenH _] & Hd).
  exists p, H, (join (map (be_digits 16 8) H)).
  split; [assumption|]. split; [assumption|]. split; [assumption|].
  split; [assumption|]. split; [reflexivity|]. split.
  - rewrite (length_join _ 8), length_map, HlenH; [reflexivity|].
    apply Forall_map, Forall_forall. intros v _. apply length_be_digits.
  - apply all_chars_join, Forall_map, Forall_forall. intros v _.
    apply all_chars_be_digits; [lia | apply is_lower_hex_digit].
Qed.

Lemma digest_is_64_lower_hex_witness :
  Z.of_nat (length (to_binary abc)) < 2 ^ 64 /\
  exists (padded : string) (H : list Z) (digest : string),
    pad_message (to_binary abc) = Some padded /\
    for_each process_chunk (create_chunks padded) H0 = Some H /\
    List.length H = 8%nat /\
    sha256_simple abc = Some digest /\
    digest = join (map (be_digits 16 8) H) /\
    length digest = 64%nat /\
    all_chars is_lower_hex digest = true.
Proof.
  assert (Hl : Z.of_nat (length (to_binary abc)) < 2 ^ 64) by (vm_compute; reflexivity).
  split; [exact Hl | exact (digest_is_64_lower_hex abc Hl)].
Defined.

(** C9: for all e, f, g with 0 <= e, f, g < 2^32, the expression
    (e & f) ^ (~e & g) on unbounded signed integers, where ~e is negative,
    is nonnegative and below 2^32, and equals Ch(e, f, g) =
    (e AND f) XOR ((NOT e) AND g) with NOT the 32-bit complement. *)
Theorem ch_expr_is_Ch (e f g : Z) :
  0 <= e < 2 ^ 32 -> 0 <= f < 2 ^ 32 -> 0 <= g < 2 ^ 32 ->
  Z.lnot e < 0 /\
  0 <= ch_expr e f g < 2 ^ 32 /\
  ch_expr e f g = Ch e f g.
Proof.
  intros He Hf Hg. split; [unfold Z.lnot; lia|].
  rewrite (ch_expr_Ch e f g He Hg). split; [|reflexivity].
  apply (word32_Ch e f g He Hg).
Qed.

Lemma ch_expr_is_Ch_witness :
  0 <= 0x510e527f < 2 ^ 32 /\ 0 <= 0x9b05688c < 2 ^ 32 /\ 0 <= 0x1f83d9ab < 2 ^ 32 /\
  Z.lnot 0x510e527f < 0 /\
  0 <= ch_expr 0x510e527f 0x9b05688c 0x1f83d9ab < 2 ^ 32 /\
  ch_expr 0x510e527f 0x9b05688c 0x1f83d9ab = Ch 0x510e527f 0x9b05688c 0x1f83d9ab.
Proof.
  assert (He : 0 <= 0x510e527f < 2 ^ 32) by (split; [discriminate | reflexivity]).
  assert (Hf : 0 <= 0x9b05688c < 2 ^ 32) by (split; [discriminate | reflexivity]).
  assert (Hg : 0 <= 0x1f83d9ab < 2 ^ 32) by (split; [discriminate | reflexivity]).
  split; [exact He|]. split; [exact Hf|]. split; [exact Hg|].
  exact (ch_expr_is_Ch 0x510e527f 0x9b05688c 0x1f83d9ab He Hf Hg).
Defined.

(** C10: on a string whose characters all have a code point of at most
    255, [to_binary] writes exactly 8 bits per character, the code point
    most significant bit first, so the digest is that of the input as a
    sequence of L bytes; on some string with a character of code point
    256 or more, [to_binary] writes more than 8 bits for that character
    and what is hashed is the bit string of no L-byte message. *)
Theorem to_binary_bytes_only :
  (forall msg : ustr,
     byte_message msg ->
     to_binary msg = join (map (fun c => be_digits 2 8 (ord c)) msg) /\
     length (to_binary msg) = (8 * List.length msg)%nat) /\
  (exists (msg : ustr) (c : N),
     In c msg /\ (256 <= c)%N /\
     (8 < length (format_b 8 (ord c)))%nat /\
     (8 * List.length msg < length (to_binary msg))%nat /\
     (forall bytes : ustr,
        byte_message bytes -> List.length bytes = List.length msg ->
        to_binary bytes <> to_binary msg /\
        sha256_simple bytes <> sha256_simple msg)).
Proof.
  split.
  - intros msg Hbytes. split;
      [now apply to_binary_bytes | now apply length_to_binary_bytes].
  - exists wide, 256%N.
    split; [now left|]. split; [discriminate|].
    split; [vm_compute; lia|]. split; [vm_compute; lia|].
    intros bytes Hbytes Hlen. split.
    + intros Heq. apply (f_equal length) in Heq.
      rewrite length_to_binary_bytes, Hlen in Heq by assumption.
      vm_compute in Heq. discriminate Heq.
    + destruct bytes as [|b [|b' bytes]]; try discriminate Hlen.
      apply Forall_cons_iff in Hbytes. destruct Hbytes as [Hb _].
      assert (Hall : forallb (fun b => negb (digest_eqb (sha256_simple [b])
                                                        (sha256_simple wide)))
                             all_bytes = true) by (vm_compute; reflexivity).
      rewrite forallb_forall in Hall.
      assert (Hin : In b all_bytes).
      { unfold all_bytes. apply in_map_iff. exists (N.to_nat b).
        split; [apply N2Nat.id | apply in_seq; lia]. }
      specialize (Hall b Hin). intros Heq. rewrite Heq in Hall.
      destruct (sha256_simple wide) as [d|]; simpl in Hall.
      * now rewrite String.eqb_refl in Hall.
      * discriminate Hall.
Qed.

Lemma to_binary_bytes_only_witness :
  byte_message abc /\
  to_binary abc = join (map (fun c => be_digits 2 8 (ord c)) abc) /\
  length (to_binary abc) = (8 * List.length abc)%nat.
Proof.
  assert (Hb : byte_message abc)
    by (repeat (apply Forall_cons; [vm_compute; discriminate|]); apply Forall_nil).
  split; [exact Hb | exact (proj1 to_binary_bytes_only abc Hb)].
Defined.

End Claims.

(** ** Further properties of the program *)

(** *** Slices *)

Section Slices.

Lemma length_substring_min (s : string) :
  forall i n, length (substring i n s) = Nat.min n (length s - i).
Proof.
  induction s as [|c s IH]; intros i n.
  - destruct i, n; reflexivity.
  - destruct i as [|i].
    + destruct n as [|n]; [reflexivity|].
      cbn [substring length]. rewrite (IH 0%nat n). lia.
    + cbn [substring length]. rewrite (IH i n). lia.
Qed.

Lemma substring_none (s : string) : forall i, substring i 0 s = EmptyString.
Proof. induction s as [|c s IH]; intros [|i]; try reflexivity. apply IH. Qed.

Lemma substring_0_all (s : string) :
  forall n, (length s <= n)%nat -> substring 0 n s = s.
Proof.
  induction s as [|c s IH]; intros n Hn.
  - destruct n; reflexivity.
  - destruct n as [|n]; [simpl in Hn; lia|].
    cbn [substring]. f_equal. apply IH. simpl in Hn. lia.
Qed.

Lemma substring_app_l (s t : string) :
  forall i n, (i + n <= length s)%nat -> substring i n (s ++ t) = substring i n s.
Proof.
  induction s as [|c s IH]; intros i n Hle.
  - simpl in Hle. assert (i = 0%nat) as -> by lia. assert (n = 0%nat) as -> by lia.
    now destruct t.
  - destruct i as [|i].
    + destruct n as [|n]; [reflexivity|].
      cbn [append substring]. f_equal. apply (IH 0%nat n). simpl in Hle. lia.
    + cbn [append substring]. apply IH. simpl in Hle. lia.
Qed.

Lemma substring_app_r (s t : string) :
  forall i n, substring (length s + i) n (s ++ t) = substring i n t.
Proof. induction s as [|c s IH]; intros i n; [reflexivity | apply IH]. Qed.

Lemma substring_split (s : string) :
  forall i n m, substring i (n + m) s = substring i n s ++ substring (i + n) m s.
Proof.
  induction s as [|c s IH]; intros i n m.
  - destruct i, n, m; reflexivity.
  - destruct i as [|i].
    + destruct n as [|n]; [reflexivity|].
      cbn [Nat.add substring append]. f_equal. apply (IH 0%nat n m).
    + cbn [Nat.add substring]. apply IH.
Qed.

Lemma substring_substring (s : string) :
  forall j m i n, (i + n <= m)%nat ->
  substring i n (substring j m s) = substring (j + i) n s.
Proof.
  induction s as [|c s IH]; intros j m i n Hle.
  - destruct j, m, i, n; reflexivity.
  - destruct j as [|j].
    + destruct m as [|m].
      * assert (i = 0%nat) as -> by lia. assert (n = 0%nat) as -> by lia. reflexivity.
      * cbn [substring Nat.add]. destruct i as [|i].
        -- destruct n as [|n]; [reflexivity|].
           cbn [substring]. f_equal. apply (IH 0%nat m 0%nat n). lia.
        -- cbn [substring]. apply (IH 0%nat m i n). lia.
    + cbn [substring Nat.add]. now apply IH.
Qed.

Lemma join_app (l1 l2 : list string) : join (l1 ++ l2)%list = join l1 ++ join l2.
Proof.
  induction l1 as [|s l1 IH]; [reflexivity|].
  rewrite <- List.app_comm_cons, !join_cons, IH. now rewrite append_assoc.
Qed.

(** Equal strings with heads of equal length have equal heads and tails. *)
Lemma append_inj (a1 b1 a2 b2 : string) :
  length a1 = length a2 -> a1 ++ b1 = a2 ++ b2 -> a1 = a2 /\ b1 = b2.
Proof.
  revert a2. induction a1 as [|c a1 IH]; intros [|c2 a2] Hlen Heq;
    try discriminate Hlen.
  - now split.
  - cbn [append] in Heq. injection Heq as -> Heq.
    destruct (IH a2) as [-> ->]; [simpl in Hlen; lia | assumption | now split].
Qed.

End Slices.

(** *** STEP 3: the chunks *)

Section Chunks.

Lemma chunks_upto (s : string) (m : nat) : forall off : nat,
  join (map (fun k => substring (off + 512 * k) 512 s) (seq 0 m)) =
  substring off (512 * m) s.
Proof.
  induction m as [|m IH]; intros off.
  - now rewrite Nat.mul_0_r, substring_none.
  - rewrite seq_S, map_app, join_app, IH. cbn [map Nat.add].
    rewrite join_cons. unfold join at 1. cbn [concat]. rewrite append_empty_r.
    replace (512 * S m)%nat with (512 * m + 512)%nat by lia.
    now rewrite substring_split.
Qed.

Lemma create_chunks_eq (s : string) :
  create_chunks s =
  map (fun k => substring (512 * k) 512 s) (seq 0 ((length s + 511) / 512)).
Proof.
  unfold create_chunks, range0.
  replace (length s + 512 - 1)%nat with (length s + 511)%nat by lia.
  rewrite map_map. apply map_ext. intros k. unfold slice. f_equal; lia.
Qed.

(** X1: the chunks of any string, put back together in order, are that
    string: nothing is lost, repeated or reordered, also when the length
    is no multiple of 512. *)
Theorem create_chunks_join (s : string) : join (create_chunks s) = s.
Proof.
  rewrite create_chunks_eq.
  rewrite (map_ext _ (fun k => substring (0 + 512 * k) 512 s)) by reflexivity.
  rewrite chunks_upto. apply substring_0_all. lia.
Qed.

(** X2: a string of n characters is cut into ceil(n / 512) chunks (none
    for the empty string); every chunk but the last has exactly 512
    characters and the last has between 1 and 512. *)
Theorem create_chunks_lengths (s : string) :
  List.length (create_chunks s) = ((length s + 511) / 512)%nat /\
  (forall k, (S k < List.length (create_chunks s))%nat ->
     length (nth k (create_chunks s) EmptyString) = 512%nat) /\
  (forall k, (S k = List.length (create_chunks s))%nat ->
     length (nth k (create_chunks s) EmptyString) = (length s - 512 * k)%nat /\
     (1 <= length s - 512 * k <= 512)%nat).
Proof.
  rewrite create_chunks_eq, length_map, length_seq.
  split; [reflexivity|]. split.
  - intros k Hk. rewrite nth_map_seq by lia. rewrite length_substring_min. lia.
  - intros k Hk. rewrite nth_map_seq by lia. rewrite length_substring_min. lia.
Qed.

End Chunks.

(** *** STEP 2: the padding of any string *)

Section PaddingMore.

Lemma bit_of_digit (d : Z) : 0 <= d < 2 -> bit_of (digit_char d) = d.
Proof. intros Hd. assert (d = 0 \/ d = 1) as [-> | ->] by lia; reflexivity. Qed.

(** Reading back a field of binary digits gives the number written. *)
Lemma be_value_be_digits (k : nat) (n : Z) :
  be_value (be_digits 2 k n) = n mod 2 ^ Z.of_nat k.
Proof.
  induction k as [|k IH].
  - simpl. now rewrite Z.mod_1_r.
  - cbn [be_digits be_value]. rewrite IH, length_be_digits.
    rewrite bit_of_digit by (apply Z.mod_pos_bound; lia).
    rewrite Nat2Z.inj_succ, Z.pow_succ_r by lia.
    rewrite (Z.mul_comm 2), Z.rem_mul_r by (try apply Z.pow_nonzero; lia).
    lia.
Qed.

Lemma be_digits_inj (k : nat) (n m : Z) :
  0 <= n < 2 ^ Z.of_nat k -> 0 <= m < 2 ^ Z.of_nat k ->
  be_digits 2 k n = be_digits 2 k m -> n = m.
Proof.
  intros Hn Hm Heq. apply (f_equal be_value) in Heq.
  rewrite !be_value_be_digits, !Z.mod_small in Heq; assumption.
Qed.

(** X3: [pad_message] returns for every string, whatever it holds: its
    loop stops after k = (447 - n) mod 512 zeros, n the length of the
    string, which is fewer than 512 passes. *)
Theorem pad_message_returns (s : string) :
  exists k : nat,
    pad_message s =
      Some (s ++ "1" ++ zeros k ++ format_b 64 (Z.of_nat (length s))) /\
    Z.of_nat k = (447 - Z.of_nat (length s)) mod 512.
Proof.
  destruct (pad_message_spec s) as (k & Hp & Hk & Hmod & _).
  exists k. split; [assumption | lia].
Qed.

Lemma padded_length (s : string) :
  Z.of_nat (length s) < 2 ^ 64 ->
  exists (k : nat) (p : string),
    pad_message s = Some p /\
    p = (s ++ "1" ++ zeros k) ++ be_digits 2 64 (Z.of_nat (length s)) /\
    (k < 512)%nat /\
    ((length s + 1 + k) mod 512 = 448)%nat /\
    length p = (length s + 1 + k + 64)%nat.
Proof.
  intros Hlen. destruct (pad_message_spec s) as (k & Hp & Hk & Hmod & _).
  rewrite length_field in Hp by assumption.
  exists k, ((s ++ "1" ++ zeros k) ++ be_digits 2 64 (Z.of_nat (length s))).
  split; [now rewrite !append_assoc|]. split; [reflexivity|].
  split; [assumption|]. split; [assumption|].
  rewrite !length_append, length_zeros, length_be_digits. simpl length. lia.
Qed.

(** X4: a string of n < 2^64 characters is padded and cut into exactly
    (n + 64) / 512 + 1 chunks, each of exactly 512 characters: at least
    one, and none is short. *)
Theorem padded_chunk_count (s : string) :
  Z.of_nat (length s) < 2 ^ 64 ->
  exists padded : string,
    pad_message s = Some padded /\
    List.length (create_chunks padded) = ((length s + 64) / 512 + 1)%nat /\
    Forall (fun chunk => length chunk = 512%nat) (create_chunks padded).
Proof.
  intros Hlen. destruct (padded_length s Hlen) as (k & p & Hp & _ & Hk & Hmod & Hlenp).
  exists p. split; [assumption|].
  rewrite create_chunks_eq, length_map, length_seq. split; [lia|].
  apply Forall_map, Forall_forall. intros i Hi. apply in_seq in Hi.
  rewrite length_substring_min. lia.
Qed.

Lemma padded_chunk_count_witness :
  Z.of_nat (length (to_binary abc)) < 2 ^ 64 /\
  exists padded : string,
    pad_message (to_binary abc) = Some padded /\
    List.length (create_chunks padded) = ((length (to_binary abc) + 64) / 512 + 1)%nat /\
    Forall (fun chunk => length chunk = 512%nat) (create_chunks padded).
Proof.
  assert (Hl : Z.of_nat (length (to_binary abc)) < 2 ^ 64) by (vm_compute; reflexivity).
  split; [exact Hl | exact (padded_chunk_count (to_binary abc) Hl)].
Defined.

(** X5: a message of L bytes (8L < 2^64) is hashed in (L + 8) / 64 + 1
    blocks; one block is enough exactly when L <= 55. *)
Theorem byte_message_block_count (msg : ustr) :
  byte_message msg ->
  Z.of_nat (8 * List.length msg) < 2 ^ 64 ->
  exists padded : string,
    pad_message (to_binary msg) = Some padded /\
    List.length (create_chunks padded) = ((List.length msg + 8) / 64 + 1)%nat /\
    (List.length (create_chunks padded) = 1%nat <-> (List.length msg <= 55)%nat).
Proof.
  intros Hbytes Hlen.
  pose proof (length_to_binary_bytes msg Hbytes) as Hbin.
  destruct (padded_chunk_count (to_binary msg)) as (p & Hp & Hcount & _).
  { now rewrite Hbin. }
  rewrite Hbin in Hcount.
  exists p. split; [assumption|]. rewrite Hcount. split; lia.
Qed.

Lemma byte_message_block_count_witness :
  byte_message abc /\
  Z.of_nat (8 * List.length abc) < 2 ^ 64 /\
  exists padded : string,
    pad_message (to_binary abc) = Some padded /\
    List.length (create_chunks padded) = ((List.length abc + 8) / 64 + 1)%nat /\
    (List.length (create_chunks padded) = 1%nat <-> (List.length abc <= 55)%nat).
Proof.
  assert (Hb : byte_message abc)
    by (repeat (apply Forall_cons; [vm_compute; discriminate|]); apply Forall_nil).
  assert (Hl : Z.of_nat (8 * List.length abc) < 2 ^ 64) by (vm_compute; reflexivity).
  split; [exact Hb|]. split; [exact Hl|].
  exact (byte_message_block_count abc Hb Hl).
Defined.

(** X6: on strings of fewer than 2^64 characters the padding is
    injective: two strings with the same padded form are equal. *)
Theorem pad_message_injective (s1 s2 : string) :
  Z.of_nat (length s1) < 2 ^ 64 -> Z.of_nat (length s2) < 2 ^ 64 ->
  pad_message s1 = pad_message s2 -> s1 = s2.
Proof.
  intros H1 H2 Heq.
  destruct (padded_length s1 H1) as (k1 & p1 & Hp1 & Hs1 & _ & _ & Hl1).
  destruct (padded_length s2 H2) as (k2 & p2 & Hp2 & Hs2 & _ & _ & Hl2).
  rewrite Hp1, Hp2 in Heq. injection Heq as Heq. subst p2.
  rewrite Hs1 in Hs2 at 1.
  assert (Hl : (length s1 + 1 + k1 + 64 = length s2 + 1 + k2 + 64)%nat) by congruence.
  apply append_inj in Hs2.
  - destruct Hs2 as [Hhead Hfield].
    apply be_digits_inj in Hfield; [|change (Z.of_nat 64) with 64; lia ..].
    apply append_inj in Hhead; [apply Hhead | lia].
  - rewrite !length_append, !length_zeros. simpl length. lia.
Qed.

Lemma pad_message_injective_witness :
  Z.of_nat (length (to_binary abc)) < 2 ^ 64 /\
  pad_message (to_binary abc) = pad_message (to_binary abc) /\
  to_binary abc = to_binary abc.
Proof.
  assert (Hl : Z.of_nat (length (to_binary abc)) < 2 ^ 64) by (vm_compute; reflexivity).
  split; [exact Hl|]. split; [reflexivity|].
  exact (pad_message_injective (to_binary abc) (to_binary abc) Hl Hl eq_refl).
Defined.

End PaddingMore.

(** *** STEP 1: the bit string of any message *)

Section ToBinaryMore.

(** X7: the bit string of a concatenation is the concatenation of the
    bit strings. *)
Theorem to_binary_app (m1 m2 : ustr) :
  to_binary (m1 ++ m2)%list = to_binary m1 ++ to_binary m2.
Proof. unfold to_binary. now rewrite map_app, join_app. Qed.

Lemma length_to_digits_gt (fuel : nat) : forall (n : Z) (k : nat),
  2 ^ Z.of_nat k <= n < 2 ^ Z.of_nat fuel ->
  (k < length (to_digits 2 fuel n))%nat.
Proof.
  induction fuel as [|fuel IH]; intros n k Hn.
  - assert (0 < 2 ^ Z.of_nat k) by (apply Z.pow_pos_nonneg; lia).
    simpl in Hn. lia.
  - cbn [to_digits]. destruct (Z.ltb_spec n 2) as [Hlt|Hge].
    + destruct k as [|k]; [simpl; lia|].
      rewrite Nat2Z.inj_succ, Z.pow_succ_r in Hn by lia.
      assert (0 < 2 ^ Z.of_nat k) by (apply Z.pow_pos_nonneg; lia). lia.
    + rewrite length_append. simpl length at 2.
      destruct k as [|k]; [lia|].
      specialize (IH (n / 2) k).
      rewrite !Nat2Z.inj_succ, !Z.pow_succ_r in Hn by lia.
      assert (0 < 2 ^ Z.of_nat k) by (apply Z.pow_pos_nonneg; lia).
      assert (0 < 2 ^ Z.of_nat fuel) by (apply Z.pow_pos_nonneg; lia).
      assert (2 ^ Z.of_nat k <= n / 2 < 2 ^ Z.of_nat fuel)
        by (split; [apply Z.div_le_lower_bound | apply Z.div_lt_upper_bound]; lia).
      specialize (IH ltac:(assumption)). lia.
Qed.

Lemma length_format_b_8 (c : N) :
  (8 <= length (format_b 8 (ord c)))%nat /\
  ((255 < c)%N -> (8 < length (format_b 8 (ord c)))%nat).
Proof.
  unfold format_b, format_0, ord.
  destruct (Z.ltb_spec (Z.of_N c) 0) as [?|_]; [lia|].
  unfold zfill. rewrite length_append, length_zeros. split; [lia|].
  intros Hc. unfold digits.
  pose proof (length_to_digits_gt (S (Z.to_nat (Z.log2 (Z.of_N c)))) (Z.of_N c) 8) as Hd.
  pose proof (digits_fuel (Z.of_N c)) as Hf.
  change (2 ^ Z.of_nat 8) with 256 in Hd.
  specialize (Hd ltac:(lia)). lia.
Qed.

(** X8: [to_binary] writes at least 8 bits per character, and exactly 8L
    bits for L characters if and only if every character is a byte. *)
Theorem to_binary_length (msg : ustr) :
  (8 * List.length msg <= length (to_binary msg))%nat /\
  (length (to_binary msg) = (8 * List.length msg)%nat <-> byte_message msg).
Proof.
  induction msg as [|c msg [IHle IHiff]].
  - split; [simpl; lia|]. split; [intros _; apply Forall_nil | reflexivity].
  - rewrite to_binary_cons, length_append. cbn [List.length].
    destruct (length_format_b_8 c) as [Hge Hgt]. split; [lia|]. split.
    + intros Hlen. apply Forall_cons.
      * destruct (N.le_gt_cases c 255) as [?|Hc]; [assumption|].
        specialize (Hgt Hc). lia.
      * apply IHiff. lia.
    + intros Hbytes. rewrite <- length_append, <- to_binary_cons.
      now apply length_to_binary_bytes.
Qed.

(** X9: on messages of bytes [to_binary] is injective: different byte
    messages are hashed from different bit strings. *)
Theorem to_binary_injective_on_bytes (m1 : ustr) : forall m2 : ustr,
  byte_message m1 -> byte_message m2 ->
  to_binary m1 = to_binary m2 -> m1 = m2.
Proof.
  induction m1 as [|c1 m1 IH]; intros [|c2 m2] Hb1 Hb2 Heq.
  - reflexivity.
  - apply (f_equal length) in Heq.
    rewrite (length_to_binary_bytes _ Hb2) in Heq. simpl in Heq. lia.
  - apply (f_equal length) in Heq.
    rewrite (length_to_binary_bytes _ Hb1) in Heq. simpl in Heq. lia.
  - rewrite (to_binary_bytes _ Hb1), (to_binary_bytes _ Hb2) in Heq.
    cbn [map] in Heq. rewrite !join_cons in Heq.
    apply Forall_cons_iff in Hb1. destruct Hb1 as [Hc1 Hb1].
    apply Forall_cons_iff in Hb2. destruct Hb2 as [Hc2 Hb2].
    apply append_inj in Heq; [|now rewrite !length_be_digits].
    destruct Heq as [Hhead Htail].
    apply be_digits_inj in Hhead;
      [|unfold ord; change (2 ^ Z.of_nat 8) with 256; lia ..].
    unfold ord in Hhead. apply N2Z.inj in Hhead. subst c2. f_equal.
    apply IH; try assumption.
    now rewrite (to_binary_bytes _ Hb1), (to_binary_bytes _ Hb2).
Qed.

Lemma to_binary_injective_on_bytes_witness :
  byte_message abc /\ to_binary abc = to_binary abc /\ abc = abc.
Proof.
  assert (Hb : byte_message abc)
    by (repeat (apply Forall_cons; [vm_compute; discriminate|]); apply Forall_nil).
  split; [exact Hb|]. split; [reflexivity|].
  exact (to_binary_injective_on_bytes abc abc Hb Hb eq_refl).
Defined.

(** X10: outside the bytes [to_binary] is not injective, and the digest
    inherits it: U+0101 U+0100 and U+0080 U+0300 give the same 18 bits, so
    replacing one pair by the other anywhere in a message leaves the bit
    string and the digest unchanged. *)
Theorem wide_characters_collide (before after : ustr) :
  (before ++ [257%N; 256%N] ++ after)%list <> (before ++ [128%N; 768%N] ++ after)%list /\
  to_binary (before ++ [257%N; 256%N] ++ after)%list =
    to_binary (before ++ [128%N; 768%N] ++ after)%list /\
  sha256_simple (before ++ [257%N; 256%N] ++ after)%list =
    sha256_simple (before ++ [128%N; 768%N] ++ after)%list.
Proof.
  assert (Hbits : to_binary (before ++ [257%N; 256%N] ++ after)%list =
                  to_binary (before ++ [128%N; 768%N] ++ after)%list).
  { rewrite !to_binary_app. do 2 f_equal. }
  split; [|split].
  - intros Heq. apply app_inv_head in Heq. discriminate Heq.
  - exact Hbits.
  - unfold sha256_simple. now rewrite Hbits.
Qed.

End ToBinaryMore.

(** *** The rotation helper *)

Section Rotation.

Lemma rightrotate_word32 (x n : Z) : 0 <= n <= 32 -> word32 (rightrotate x n).
Proof. intros _. unfold rightrotate. rewrite land_mask. apply word32_mod. Qed.

Lemma rightrotate_testbit (x n i : Z) :
  word32 x -> 0 <= n <= 32 -> 0 <= i < 32 ->
  Z.testbit (rightrotate x n) i = Z.testbit x ((i + n) mod 32).
Proof.
  intros Hx Hn Hi. unfold rightrotate. rewrite land_mask.
  rewrite Z.mod_pow2_bits_low by lia.
  rewrite Z.lor_spec, Z.shiftr_spec, Z.shiftl_spec by lia.
  destruct (Z.lt_ge_cases (i + n) 32) as [Hlt|Hge].
  - rewrite (Z.testbit_neg_r x (i - (32 - n))) by lia.
    rewrite orb_false_r. f_equal. lia.
  - replace (Z.testbit x (i + n)) with false.
    + rewrite orb_false_l. f_equal. lia.
    + symmetry. rewrite <- (Z.mod_small x (2 ^ 32)) by assumption.
      apply Z.mod_pow2_bits_high. lia.
Qed.

(** X11: for a shift count [0 <= n <= 32], [rightrotate] returns a 32-bit
    value for every integer [x], and on a 32-bit [x] it is the circular
    rotation: bit [i] of the result is bit [(i + n) mod 32] of [x]. *)
Theorem rightrotate_bits (x n : Z) :
  0 <= n <= 32 ->
  0 <= rightrotate x n < 2 ^ 32 /\
  (0 <= x < 2 ^ 32 ->
   forall i, 0 <= i < 32 ->
     Z.testbit (rightrotate x n) i = Z.testbit x ((i + n) mod 32)).
Proof.
  intros Hn. split; [now apply rightrotate_word32|].
  intros Hx i Hi. now apply rightrotate_testbit.
Qed.

Lemma rightrotate_bits_witness :
  0 <= 7 <= 32 /\ 0 <= 0x6a09e667 < 2 ^ 32 /\
  0 <= rightrotate 0x6a09e667 7 < 2 ^ 32 /\
  forall i, 0 <= i < 32 ->
    Z.testbit (rightrotate 0x6a09e667 7) i = Z.testbit 0x6a09e667 ((i + 7) mod 32).
Proof.
  assert (Hn : 0 <= 7 <= 32) by (split; discriminate).
  assert (Hx : 0 <= 0x6a09e667 < 2 ^ 32) by (split; [discriminate | reflexivity]).
  split; [exact Hn|]. split; [exact Hx|].
  split; [exact (proj1 (rightrotate_bits 0x6a09e667 7 Hn))
         | exact (proj2 (rightrotate_bits 0x6a09e667 7 Hn) Hx)].
Defined.

Lemma word32_testbit_high (x i : Z) : word32 x -> 32 <= i -> Z.testbit x i = false.
Proof.
  intros Hx Hi. rewrite <- (Z.mod_small x (2 ^ 32)) by assumption.
  apply Z.mod_pow2_bits_high. lia.
Qed.

(** X12: rotations of a 32-bit value compose by adding the amounts
    modulo 32, so rotating by [n] and then by [32 - n] gives the value
    back. *)
Theorem rightrotate_compose (x a b : Z) :
  0 <= x < 2 ^ 32 -> 0 <= a <= 32 -> 0 <= b <= 32 ->
  rightrotate (rightrotate x a) b = rightrotate x ((a + b) mod 32) /\
  rightrotate (rightrotate x a) (32 - a) = x.
Proof.
  intros Hx Ha Hb.
  assert (Hcomp : forall c, 0 <= c <= 32 ->
            rightrotate (rightrotate x a) c = rightrotate x ((a + c) mod 32)).
  { intros c Hc. apply Z.bits_inj'. intros i Hi.
    destruct (Z.lt_ge_cases i 32) as [Hlt|Hge].
    - rewrite (rightrotate_testbit (rightrotate x a) c)
        by (try apply rightrotate_word32; lia).
      rewrite (rightrotate_testbit x a) by (assumption || lia).
      rewrite (rightrotate_testbit x ((a + c) mod 32)) by (assumption || lia).
      f_equal. lia.
    - rewrite !word32_testbit_high; try (apply rightrotate_word32; lia); auto. }
  split; [now apply Hcomp|].
  rewrite Hcomp by lia. replace ((a + (32 - a)) mod 32) with 0 by lia.
  apply Z.bits_inj'. intros i Hi.
  destruct (Z.lt_ge_cases i 32) as [Hlt|Hge].
  - rewrite (rightrotate_testbit x 0) by (assumption || lia). f_equal. lia.
  - rewrite !word32_testbit_high; try (apply rightrotate_word32; lia); auto.
Qed.

Lemma rightrotate_compose_witness :
  0 <= 0x6a09e667 < 2 ^ 32 /\ 0 <= 13 <= 32 /\ 0 <= 22 <= 32 /\
  rightrotate (rightrotate 0x6a09e667 13) 22 = rightrotate 0x6a09e667 ((13 + 22) mod 32) /\
  rightrotate (rightrotate 0x6a09e667 13) (32 - 13) = 0x6a09e667.
Proof.
  assert (Hx : 0 <= 0x6a09e667 < 2 ^ 32) by (split; [discriminate | reflexivity]).
  assert (Ha : 0 <= 13 <= 32) by (split; discriminate).
  assert (Hb : 0 <= 22 <= 32) by (split; discriminate).
  split; [exact Hx|]. split; [exact Ha|]. split; [exact Hb|].
  exact (rightrotate_compose 0x6a09e667 13 22 Hx Ha Hb).
Defined.

End Rotation.

(** *** The schedule expander at its edges *)

Section ScheduleEdges.

Lemma map_opt_None {A B : Type} (f : A -> option B) (l : list A) (x : A) :
  In x l -> f x = None -> map_opt f l = None.
Proof.
  induction l as [|y l IH]; intros Hin Hx; [contradiction|].
  cbn [map_opt]. destruct Hin as [->|Hin].
  - now rewrite Hx.
  - rewrite (IH Hin Hx). unfold bind. now destruct (f y).
Qed.

Lemma map_opt_ext_in {A B : Type} (f g : A -> option B) (l : list A) :
  (forall x, In x l -> f x = g x) -> map_opt f l = map_opt g l.
Proof.
  induction l as [|y l IH]; intros Hfg; [reflexivity|].
  cbn [map_opt]. rewrite (Hfg y) by now left.
  rewrite IH; [reflexivity|]. intros x Hx. apply Hfg. now right.
Qed.

Lemma range_words : range0 512 32 = map (fun k => k * 32)%nat (seq 0 16).
Proof. reflexivity. Qed.

(** X13: [create_words] does not check the length of its chunk.  On a
    bit string of at most 480 characters the sixteenth slice is empty and
    the call fails (ValueError); of a longer bit string only the first 512
    characters are read. *)
Theorem create_words_chunk_length (chunk : string) :
  bits chunk ->
  ((length chunk <= 480)%nat -> create_words chunk = None) /\
  create_words chunk = create_words (substring 0 512 chunk).
Proof.
  intros _. split.
  - intros Hlen. unfold create_words.
    rewrite (map_opt_None _ _ 480%nat); [reflexivity | |].
    + rewrite range_words. apply in_map_iff. exists 15%nat.
      split; [reflexivity | apply in_seq; lia].
    + unfold slice.
      assert (Hempty : length (substring 480 (480 + 32 - 480) chunk) = 0%nat)
        by (rewrite length_substring_min; lia).
      destruct (substring 480 (480 + 32 - 480) chunk); [reflexivity | discriminate Hempty].
  - unfold create_words. f_equal. apply map_opt_ext_in. intros i Hi.
    rewrite range_words in Hi. apply in_map_iff in Hi.
    destruct Hi as (k & <- & Hk). apply in_seq in Hk.
    unfold slice. rewrite substring_substring by lia. reflexivity.
Qed.

Lemma create_words_chunk_length_witness :
  bits (zeros 480) /\ (length (zeros 480) <= 480)%nat /\
  create_words (zeros 480) = None /\
  create_words (zeros 480) = create_words (substring 0 512 (zeros 480)).
Proof.
  assert (Hb : bits (zeros 480)) by (vm_compute; reflexivity).
  assert (Hl : (length (zeros 480) <= 480)%nat) by (rewrite length_zeros; apply Nat.le_refl).
  split; [exact Hb|]. split; [exact Hl|].
  split; [exact (proj1 (create_words_chunk_length (zeros 480) Hb) Hl)
         | exact (proj2 (create_words_chunk_length (zeros 480) Hb))].
Defined.

End ScheduleEdges.

(** *** What the blocks hold *)

Section BlockContents.

Lemma be_value_app (a b : string) :
  be_value (a ++ b) = be_value a * 2 ^ Z.of_nat (length b) + be_value b.
Proof.
  induction a as [|c a IH]; [simpl; lia|].
  cbn [append be_value]. rewrite IH, length_append, Nat2Z.inj_add, Z.pow_add_r by lia.
  lia.
Qed.

Lemma substring_4x8 (s : string) (a : nat) :
  substring a 32 s =
  substring a 8 s ++ substring (a + 8) 8 s ++ substring (a + 16) 8 s
    ++ substring (a + 24) 8 s.
Proof.
  transitivity (substring a (8 + (8 + (8 + 8))) s); [reflexivity|].
  rewrite !substring_split.
  replace (a + 8 + 8 + 8)%nat with (a + 24)%nat by lia.
  replace (a + 8 + 8)%nat with (a + 16)%nat by lia.
  reflexivity.
Qed.

(** Character [q] of a message of bytes is written at bits [8q .. 8q+7]. *)
Lemma byte_at (msg : ustr) : forall q : nat,
  byte_message msg -> (q < List.length msg)%nat ->
  substring (8 * q) 8 (to_binary msg) = be_digits 2 8 (ord (nth q msg 0%N)).
Proof.
  induction msg as [|c msg IH]; intros q Hbytes Hq; [simpl in Hq; lia|].
  apply Forall_cons_iff in Hbytes. destruct Hbytes as [Hc Hbytes].
  rewrite to_binary_cons.
  assert (Hfmt : format_b 8 (ord c) = be_digits 2 8 (ord c)).
  { apply (format_0_fits 2); [lia|]. unfold ord. change (2 ^ Z.of_nat 8) with 256. lia. }
  rewrite Hfmt. destruct q as [|q].
  - rewrite substring_app_l by (rewrite length_be_digits; lia).
    apply substring_0_all. rewrite length_be_digits. lia.
  - replace (8 * S q)%nat with (length (be_digits 2 8 (ord c)) + 8 * q)%nat
      by (rewrite length_be_digits; lia).
    rewrite substring_app_r. cbn [nth]. apply IH; [assumption|].
    simpl in Hq. lia.
Qed.

Lemma be_value_byte (msg : ustr) (q : nat) :
  byte_message msg -> (q < List.length msg)%nat ->
  be_value (substring (8 * q) 8 (to_binary msg)) = ord (nth q msg 0%N).
Proof.
  intros Hbytes Hq. rewrite byte_at by assumption.
  rewrite be_value_be_digits. apply Z.mod_small.
  assert (Hc : (nth q msg 0 <= 255)%N).
  { unfold byte_message in Hbytes. rewrite Forall_forall in Hbytes.
    apply Hbytes, nth_In, Hq. }
  unfold ord. change (2 ^ Z.of_nat 8) with 256. lia.
Qed.

Lemma padded_blocks (s : string) :
  bits s -> Z.of_nat (length s) < 2 ^ 64 ->
  exists (k : nat) (p : string),
    pad_message s = Some p /\
    p = (s ++ "1" ++ zeros k) ++ be_digits 2 64 (Z.of_nat (length s)) /\
    length p = (length s + 1 + k + 64)%nat /\
    (length p mod 512 = 0)%nat /\
    create_chunks p = map (fun j => substring (512 * j) 512 p) (seq 0 (length p / 512)) /\
    Forall block (create_chunks p).
Proof.
  intros Hs Hlen.
  destruct (padded_shape s Hs Hlen) as (k & p & Hp & Heq & _ & Hmod & _ & Hlenp & Hbits).
  exists k, p. split; [assumption|]. split; [now rewrite !append_assoc|].
  split; [assumption|]. split; [lia|].
  apply create_chunks_blocks; [assumption | lia].
Qed.

(** X14: in the schedule of block j of a message of bytes, word i
    (i < 16) packs the four bytes 64j+4i .. 64j+4i+3 of the message, first
    byte highest, whenever the message has these bytes. *)
Theorem schedule_packs_message_bytes (msg : ustr) (j i : nat) :
  byte_message msg ->
  Z.of_nat (8 * List.length msg) < 2 ^ 64 ->
  (i < 16)%nat -> (64 * j + 4 * i + 4 <= List.length msg)%nat ->
  exists (padded : string) (W : list Z),
    pad_message (to_binary msg) = Some padded /\
    create_words (nth j (create_chunks padded) EmptyString) = Some W /\
    nth i W 0 =
      ord (nth (64 * j + 4 * i) msg 0%N) * 2 ^ 24
      + ord (nth (64 * j + 4 * i + 1) msg 0%N) * 2 ^ 16
      + ord (nth (64 * j + 4 * i + 2) msg 0%N) * 2 ^ 8
      + ord (nth (64 * j + 4 * i + 3) msg 0%N).
Proof.
  intros Hbytes Hlen Hi Hq.
  pose proof (length_to_binary_bytes msg Hbytes) as Hbin.
  destruct (padded_blocks (to_binary msg) (bits_to_binary msg))
    as (k & p & Hp & Heq & Hlenp & Hmod & Hchunks & Hblocks).
  { now rewrite Hbin. }
  rewrite Hbin in Hlenp.
  assert (Hj : (j < length p / 512)%nat) by lia.
  assert (Hchunk : nth j (create_chunks p) EmptyString = substring (512 * j) 512 p)
    by (rewrite Hchunks;
        exact (nth_map_seq (fun j => substring (512 * j) 512 p) _ j EmptyString Hj)).
  assert (Hblock : block (nth j (create_chunks p) EmptyString)).
  { rewrite Forall_forall in Hblocks. apply Hblocks, nth_In.
    rewrite Hchunks, length_map, length_seq. exact Hj. }
  destruct (create_words_spec _ Hblock) as (W & HW & _ & _ & Hfirst & _).
  exists p, W. split; [assumption|]. split; [assumption|].
  rewrite (Hfirst i Hi), Hchunk, substring_substring by lia.
  rewrite Heq, append_assoc, substring_app_l by lia.
  replace (512 * j + 32 * i)%nat with (8 * (64 * j + 4 * i))%nat by lia.
  rewrite substring_4x8, !be_value_app, !length_append, !length_substring_min.
  replace (8 * (64 * j + 4 * i) + 8)%nat with (8 * (64 * j + 4 * i + 1))%nat by lia.
  replace (8 * (64 * j + 4 * i) + 16)%nat with (8 * (64 * j + 4 * i + 2))%nat by lia.
  replace (8 * (64 * j + 4 * i) + 24)%nat with (8 * (64 * j + 4 * i + 3))%nat by lia.
  rewrite !be_value_byte by (assumption || lia).
  rewrite Hbin.
  replace (Nat.min 8 (8 * List.length msg - 8 * (64 * j + 4 * i + 3))) with 8%nat by lia.
  replace (Nat.min 8 (8 * List.length msg - 8 * (64 * j + 4 * i + 2))) with 8%nat by lia.
  replace (Nat.min 8 (8 * List.length msg - 8 * (64 * j + 4 * i + 1))) with 8%nat by lia.
  change (Z.of_nat (8 + (8 + 8))) with 24. change (Z.of_nat (8 + 8)) with 16.
  change (Z.of_nat 8) with 8. lia.
Qed.

Lemma schedule_packs_message_bytes_witness :
  byte_message (ustr_of_string "abcdefgh") /\
  Z.of_nat (8 * List.length (ustr_of_string "abcdefgh")) < 2 ^ 64 /\
  (1 < 16)%nat /\
  (64 * 0 + 4 * 1 + 4 <= List.length (ustr_of_string "abcdefgh"))%nat /\
  exists (padded : string) (W : list Z),
    pad_message (to_binary (ustr_of_string "abcdefgh")) = Some padded /\
    create_words (nth 0 (create_chunks padded) EmptyString) = Some W /\
    nth 1 W 0 =
      ord (nth (64 * 0 + 4 * 1) (ustr_of_string "abcdefgh") 0%N) * 2 ^ 24
      + ord (nth (64 * 0 + 4 * 1 + 1) (ustr_of_string "abcdefgh") 0%N) * 2 ^ 16
      + ord (nth (64 * 0 + 4 * 1 + 2) (ustr_of_string "abcdefgh") 0%N) * 2 ^ 8
      + ord (nth (64 * 0 + 4 * 1 + 3) (ustr_of_string "abcdefgh") 0%N).
Proof.
  assert (Hb : byte_message (ustr_of_string "abcdefgh"))
    by (repeat (apply Forall_cons; [vm_compute; discriminate|]); apply Forall_nil).
  assert (Hl : Z.of_nat (8 * List.length (ustr_of_string "abcdefgh")) < 2 ^ 64)
    by (vm_compute; reflexivity).
  assert (Hi : (1 < 16)%nat) by (vm_compute; lia).
  assert (Hq : (64 * 0 + 4 * 1 + 4 <= List.length (ustr_of_string "abcdefgh"))%nat)
    by (vm_compute; lia).
  split; [exact Hb|]. split; [exact Hl|]. split; [exact Hi|]. split; [exact Hq|].
  exact (schedule_packs_message_bytes (ustr_of_string "abcdefgh") 0 1 Hb Hl Hi Hq).
Defined.

(** X15: for every message of n < 2^64 bits, the last two words the
    schedule reads from the last block are the length field: W[14] is the
    high and W[15] the low half of n. *)
Theorem last_block_holds_bit_length (message : ustr) :
  Z.of_nat (length (to_binary message)) < 2 ^ 64 ->
  exists (padded : string) (W : list Z),
    pad_message (to_binary message) = Some padded /\
    create_words
      (nth (List.length (create_chunks padded) - 1) (create_chunks padded) EmptyString)
      = Some W /\
    nth 14 W 0 * 2 ^ 32 + nth 15 W 0 = Z.of_nat (length (to_binary message)).
Proof.
  intros Hlen.
  destruct (padded_blocks (to_binary message) (bits_to_binary message) Hlen)
    as (k & p & Hp & Heq & Hlenp & Hmod & Hchunks & Hblocks).
  set (n := length (to_binary message)) in *.
  set (m := (length p / 512)%nat).
  assert (Hcount : List.length (create_chunks p) = m)
    by (rewrite Hchunks, length_map, length_seq; reflexivity).
  assert (Hm : (512 * m = length p /\ 1 <= m)%nat) by (unfold m; lia).
  assert (Hchunk : nth (m - 1) (create_chunks p) EmptyString
                   = substring (512 * (m - 1)) 512 p)
    by (rewrite Hchunks;
        apply (nth_map_seq (fun j => substring (512 * j) 512 p) _ (m - 1) EmptyString);
        fold m; lia).
  assert (Hblock : block (nth (m - 1) (create_chunks p) EmptyString)).
  { rewrite Forall_forall in Hblocks. apply Hblocks, nth_In. lia. }
  destruct (create_words_spec _ Hblock) as (W & HW & _ & _ & Hfirst & _).
  exists p, W. split; [assumption|]. rewrite Hcount. split; [assumption|].
  rewrite (Hfirst 14%nat), (Hfirst 15%nat), Hchunk by lia.
  rewrite !substring_substring by lia.
  set (head := to_binary message ++ "1" ++ zeros k) in *.
  set (field := be_digits 2 64 (Z.of_nat n)) in *.
  assert (Hhead : length head = (512 * (m - 1) + 448)%nat).
  { assert (length p = (length head + 64)%nat)
      by (rewrite Heq, length_append; unfold field; now rewrite length_be_digits).
    lia. }
  assert (Hfield : length field = 64%nat) by apply length_be_digits.
  replace (512 * (m - 1) + 32 * 14)%nat with (length head + 0)%nat by lia.
  replace (512 * (m - 1) + 32 * 15)%nat with (length head + 32)%nat by lia.
  rewrite Heq, !substring_app_r.
  assert (Hval : be_value (substring 0 32 field ++ substring (0 + 32) 32 field) = Z.of_nat n).
  { rewrite <- (substring_split field 0 32 32).
    rewrite substring_0_all by lia. unfold field.
    rewrite be_value_be_digits. apply Z.mod_small. change (Z.of_nat 64) with 64. lia. }
  rewrite be_value_app, length_substring_min, Hfield in Hval.
  exact Hval.
Qed.

Lemma last_block_holds_bit_length_witness :
  Z.of_nat (length (to_binary abc)) < 2 ^ 64 /\
  exists (padded : string) (W : list Z),
    pad_message (to_binary abc) = Some padded /\
    create_words
      (nth (List.length (create_chunks padded) - 1) (create_chunks padded) EmptyString)
      = Some W /\
    nth 14 W 0 * 2 ^ 32 + nth 15 W 0 = Z.of_nat (length (to_binary abc)).
Proof.
  assert (Hl : Z.of_nat (length (to_binary abc)) < 2 ^ 64) by (vm_compute; reflexivity).
  split; [exact Hl | exact (last_block_holds_bit_length abc Hl)].
Defined.

(** X16: the padding can be undone: the last 64 characters of the padded
    form of a string of fewer than 2^64 characters, read as a binary
    number, give its length, and the padded form starts with the string. *)
Theorem pad_message_unpad (s : string) :
  Z.of_nat (length s) < 2 ^ 64 ->
  exists padded : string,
    pad_message s = Some padded /\
    be_value (substring (length padded - 64) 64 padded) = Z.of_nat (length s) /\
    substring 0 (length s) padded = s /\
    get (length s) padded = Some "1"%char.
Proof.
  intros Hlen. destruct (padded_length s Hlen) as (k & p & Hp & Heq & _ & _ & Hlenp).
  exists p. split; [assumption|]. split; [|split].
  - replace (length p - 64)%nat with (length (s ++ "1" ++ zeros k) + 0)%nat
      by (rewrite !length_append, length_zeros; simpl length; lia).
    rewrite Heq, substring_app_r, substring_0_all by (rewrite length_be_digits; lia).
    rewrite be_value_be_digits. apply Z.mod_small. change (Z.of_nat 64) with 64. lia.
  - rewrite Heq, !append_assoc, substring_app_l by lia.
    apply substring_0_all. lia.
  - rewrite Heq, !append_assoc.
    rewrite <- (append_correct2 s _ 0). reflexivity.
Qed.

Lemma pad_message_unpad_witness :
  Z.of_nat (length (to_binary abc)) < 2 ^ 64 /\
  exists padded : string,
    pad_message (to_binary abc) = Some padded /\
    be_value (substring (length padded - 64) 64 padded) = Z.of_nat (length (to_binary abc)) /\
    substring 0 (length (to_binary abc)) padded = to_binary abc /\
    get (length (to_binary abc)) padded = Some "1"%char.
Proof.
  assert (Hl : Z.of_nat (length (to_binary abc)) < 2 ^ 64) by (vm_compute; reflexivity).
  split; [exact Hl | exact (pad_message_unpad (to_binary abc) Hl)].
Defined.

(** X17: the hash state stays eight words below 2^32: from such a state,
    any sequence of blocks is processed without error and leaves such a
    state. *)
Theorem hash_state_stays_32bit (chunks : list string) (H : list Z) :
  Forall block chunks ->
  List.length H = 8%nat -> Forall (fun w => 0 <= w < 2 ^ 32) H ->
  exists H' : list Z,
    for_each process_chunk chunks H = Some H' /\
    List.length H' = 8%nat /\ Forall (fun w => 0 <= w < 2 ^ 32) H'.
Proof.
  intros Hblocks Hlen H32.
  destruct (process_chunks_refine chunks H Hblocks (conj Hlen H32))
    as (Ws & _ & _ & Hrun & [Hlen' H32']).
  eexists. split; [exact Hrun|]. split; assumption.
Qed.

Lemma hash_state_stays_32bit_witness :
  Forall block [zero_block] /\
  List.length H0 = 8%nat /\ Forall (fun w => 0 <= w < 2 ^ 32) H0 /\
  exists H' : list Z,
    for_each process_chunk [zero_block] H0 = Some H' /\
    List.length H' = 8%nat /\ Forall (fun w => 0 <= w < 2 ^ 32) H'.
Proof.
  assert (Hb : Forall block [zero_block])
    by (apply Forall_cons; [split; vm_compute; reflexivity | apply Forall_nil]).
  assert (Hl : List.length H0 = 8%nat) by reflexivity.
  assert (H32 : Forall (fun w => 0 <= w < 2 ^ 32) H0) by exact (proj2 state32_H0).
  split; [exact Hb|]. split; [exact Hl|]. split; [exact H32|].
  exact (hash_state_stays_32bit [zero_block] H0 Hb Hl H32).
Defined.

End BlockContents.
